(** * EEPROM wear levelling: a shallow embedding of [wear_levelling.c]

    The development models the four operations of the library
    ([setting_sector_clear], [eeprom_all_sectors_clear],
    [eeprom_sector_load], [eeprom_sector_write]) over a byte-addressable
    device that records every transport call, and proves the properties the
    specification states about them. *)

From Stdlib Require Import ZArith Lia Bool.
From Stdlib.Strings Require Import Byte.
From stdpp Require Import base tactics option list numbers.

Local Open Scope Z_scope.

(** ** Constants of [wear_levelling.c] and [config.h] *)

Definition SECTOR_INACTIVE : byte := x00.
Definition SECTOR_ACTIVE : byte := x01.

Definition NUMBER_OF_SECTORS : Z := 4.

(** [sizeof(struct_data_t)]: [uint8_t data[64]] followed by [uint16_t crc]. *)
Definition DATA_LENGTH : nat := 64.
Definition sizeof_struct_data_t : nat := 66.

(** Offset of the [crc] field inside [struct_data_t]. *)
Definition offsetof_crc : nat := 64.

Definition sector_status_address : list Z :=
  [0x0000; 0x1000; 0x2000; 0x3000].

Definition sector_address : list Z :=
  [0x0002; 0x1002; 0x2002; 0x3002].

(** Truncation to [uint8_t] and [uint32_t]. *)
Definition wrap8 (z : Z) : Z := z mod 2 ^ 8.
Definition wrap32 (z : Z) : Z := z mod 2 ^ 32.

(** ** The device behind the transport *)

(** A transport call, as seen on the bus. *)
Inductive event : Type :=
  | EvRead (address : Z) (size : nat)
  | EvWrite (address : Z) (data : list byte).

Record device : Type := Device {
  mem : Z -> byte;          (* content of the memory, by address *)
  log : list event          (* transport calls issued so far, oldest first *)
}.

Definition is_write (e : event) : bool :=
  match e with EvWrite _ _ => true | EvRead _ _ => false end.

Definition writes_of (l : list event) : list event := List.filter is_write l.

(** [n] bytes of the memory starting at [address]. *)
Definition read_bytes (m : Z -> byte) (address : Z) (n : nat) : list byte :=
  map (fun i => m (address + Z.of_nat i)) (seq 0 n).

(** The memory after [data] has been stored from [address] on. *)
Definition store_bytes (m : Z -> byte) (address : Z) (data : list byte)
  : Z -> byte :=
  fun a =>
    if (address <=? a) && (a <? address + Z.of_nat (length data))
    then nth (Z.to_nat (a - address)) data x00
    else m a.

(** ** A state and error monad for the C code

    A computation threads the device and fails ([None]) where the C program
    has undefined behaviour: an array index out of range, or an access past
    the end of a program buffer. *)

Definition M (A : Type) : Type := device -> option (A * device).

Definition ret {A} (a : A) : M A := fun d => Some (a, d).

Definition bind {A B} (m : M A) (k : A -> M B) : M B :=
  fun d => match m d with
           | Some (a, d') => k a d'
           | None => None
           end.

Declare Scope c_scope.
Delimit Scope c_scope with C.
Notation "x <- m ;; k" := (bind m (fun x => k))
  (at level 100, m at next level, right associativity) : c_scope.
Notation "m ;;; k" := (bind m (fun _ => k))
  (at level 100, right associativity) : c_scope.

(** A step of the program that touches no device: its value, or undefined
    behaviour. *)
Definition lift {A} (o : option A) : M A :=
  fun d => match o with Some a => Some (a, d) | None => None end.

(** [table[i]] for a [uint8_t] index. *)
Definition index (table : list Z) (i : Z) : option Z :=
  table !! Z.to_nat i.

(** Modelled from the spec: the transport ([eeprom_write] and [eeprom_read]
    are only declared in [config.h]).  [eeprom_write] stores [size] bytes of
    [data] from [address] on; [eeprom_read] fetches [size] bytes from
    [address] into the first [size] bytes of [dst], whose other bytes stay.
    Both always succeed on the device, whose addresses are not bounded
    here; a [size] beyond the program buffer is an out-of-bounds access of
    the caller. *)
Definition eeprom_write (address : Z) (data : list byte) (size : Z) : M unit :=
  fun d =>
    if size <=? Z.of_nat (length data) then
      let bytes := take (Z.to_nat size) data in
      Some (tt, {| mem := store_bytes (mem d) address bytes;
                   log := log d ++ [EvWrite address bytes] |})
    else None.

(** Modelled from the spec: [eeprom_read], the other half of the transport;
    the result is [dst] after the call. *)
Definition eeprom_read (address : Z) (dst : list byte) (size : Z)
  : M (list byte) :=
  fun d =>
    if size <=? Z.of_nat (length dst) then
      let n := Z.to_nat size in
      Some (read_bytes (mem d) address n ++ drop n dst,
            {| mem := mem d; log := log d ++ [EvRead address n] |})
    else None.

(** [memcpy(dst, src, size)]. *)
Definition memcpy (dst src : list byte) (size : Z) : option (list byte) :=
  if (size <=? Z.of_nat (length dst)) && (size <=? Z.of_nat (length src))
  then Some (take (Z.to_nat size) src ++ drop (Z.to_nat size) dst)
  else None.

(** Byte order of the platform, which fixes how the [uint16_t crc] field of
    [struct_data_t] is read from its two bytes. *)
Inductive endianness : Type := LittleEndian | BigEndian.

Definition u16_of_bytes (e : endianness) (b0 b1 : byte) : Z :=
  match e with
  | LittleEndian => Z.of_N (Byte.to_N b0) + 2 ^ 8 * Z.of_N (Byte.to_N b1)
  | BigEndian => Z.of_N (Byte.to_N b1) + 2 ^ 8 * Z.of_N (Byte.to_N b0)
  end.

(** [sector.crc] for a [struct_data_t] held as its 66 bytes. *)
Definition sector_crc (e : endianness) (sector : list byte) : Z :=
  u16_of_bytes e (nth offsetof_crc sector x00)
                 (nth (S offsetof_crc) sector x00).

(** Outcome of the scanning loop of [eeprom_sector_load]: it returns from
    inside the loop, or falls through with the staging record as it is. *)
Inductive scan_result : Type :=
  | Found (active_sector : Z) (buffer : list byte)
  | NotFound (sector : list byte).

(** ** The code of [wear_levelling.c] *)

Section WearLevelling.

(** The integrity primitive is left to the user ([config.h] declares it
    only); [calculate_crc16 data] stands for the call
    [calculate_crc16(data, length data)]. *)
Variable calculate_crc16 : list byte -> Z.
Variable endian : endianness.

Local Open Scope c_scope.

(** [setting_sector_clear], wear_levelling.c 48-55. *)
Definition setting_sector_clear (sector : Z) : M unit :=
  let status := [SECTOR_INACTIVE] in
  let empty_sector := replicate sizeof_struct_data_t x00 in
  a <- lift (index sector_status_address sector) ;;
  eeprom_write a status 1 ;;;
  a <- lift (index sector_address sector) ;;
  eeprom_write a empty_sector (Z.of_nat sizeof_struct_data_t).

(** Modelled from the spec: [setting_system_state_clear], the helper that
    [eeprom_all_sectors_clear] calls, is defined nowhere in the
    repository.  The specification reads the name as a slip for
    [setting_sector_clear] ("the intent is clearly to invoke clear_sector
    on every slot"). *)
Definition setting_system_state_clear (sector : Z) : M unit :=
  setting_sector_clear sector.

(** The loop [for (uint8_t i = start; i < NUMBER_OF_SECTORS; i++) body(i)]
    with [remaining] iterations to go. *)
Fixpoint for_sectors (remaining : nat) (i : Z) (body : Z -> M unit)
  : M unit :=
  match remaining with
  | O => ret tt
  | S k => body i ;;; for_sectors k (wrap8 (i + 1)) body
  end.

(** [eeprom_all_sectors_clear], wear_levelling.c 57-63. *)
Definition eeprom_all_sectors_clear : M unit :=
  for_sectors (Z.to_nat NUMBER_OF_SECTORS) 0 setting_system_state_clear.

(** The test of line 78:
    [calculate_crc16((uint8_t * )&sector, size - 2) == sector.crc],
    with [size - 2] computed in [uint32_t]. *)
Definition crc_matches (sector : list byte) (size : Z) : option bool :=
  let len := wrap32 (size - 2) in
  if len <=? Z.of_nat (length sector)
  then Some (calculate_crc16 (take (Z.to_nat len) sector)
             =? sector_crc endian sector)
  else None.

(** One iteration of the loop of [eeprom_sector_load], lines 73-83.  The
    one-byte variable [status] is overwritten whole by the read. *)
Definition load_body (active_sector : Z) (sector buffer : list byte)
    (size : Z) : M scan_result :=
  a <- lift (index sector_status_address active_sector) ;;
  status <- eeprom_read a [x00] 1 ;;
  if Byte.eqb (nth 0 status x00) SECTOR_ACTIVE then
    a <- lift (index sector_address active_sector) ;;
    sector <- eeprom_read a sector size ;;
    ok <- lift (crc_matches sector size) ;;
    if ok then
      buffer <- lift (memcpy buffer sector size) ;;
      ret (Found active_sector buffer)
    else ret (NotFound sector)
  else ret (NotFound sector).

(** The loop of lines 71-84, with [remaining] iterations to go. *)
Fixpoint load_scan (remaining : nat) (active_sector : Z)
    (sector buffer : list byte) (size : Z) : M scan_result :=
  match remaining with
  | O => ret (NotFound sector)
  | S k =>
      r <- load_body active_sector sector buffer size ;;
      match r with
      | Found i b => ret (Found i b)
      | NotFound sector =>
          load_scan k (wrap8 (active_sector + 1)) sector buffer size
      end
  end.

(** [eeprom_sector_load], wear_levelling.c 65-94.  The result is the
    returned index and the caller's buffer after the call. *)
Definition eeprom_sector_load (buffer : list byte) (size : Z)
  : M (Z * list byte) :=
  let sector := replicate sizeof_struct_data_t x00 in
  r <- load_scan (Z.to_nat NUMBER_OF_SECTORS) 0 sector buffer size ;;
  match r with
  | Found active_sector buffer => ret (active_sector, buffer)
  | NotFound sector =>
      eeprom_all_sectors_clear ;;;
      let status := [SECTOR_ACTIVE] in
      a <- lift (index sector_status_address 0) ;;
      eeprom_write a status 1 ;;;
      a <- lift (index sector_address 0) ;;
      eeprom_write a sector size ;;;
      ret (0, buffer)
  end.

(** [eeprom_sector_write], wear_levelling.c 96-112. *)
Definition eeprom_sector_write (buffer : list byte) (size : Z)
    (current_sector : Z) : M Z :=
  let status := [SECTOR_INACTIVE] in
  a <- lift (index sector_status_address current_sector) ;;
  eeprom_write a status 1 ;;;
  let current_sector :=
    wrap8 ((current_sector + 1) mod NUMBER_OF_SECTORS) in
  let status := [SECTOR_ACTIVE] in
  a <- lift (index sector_status_address current_sector) ;;
  eeprom_write a status 1 ;;;
  a <- lift (index sector_address current_sector) ;;
  eeprom_write a buffer size ;;;
  ret current_sector.

End WearLevelling.

(** ** Reading the sector slots of a memory *)

Definition sectors : list Z :=
  map Z.of_nat (seq 0 (Z.to_nat NUMBER_OF_SECTORS)).

Definition status_address_of (i : Z) : Z :=
  nth (Z.to_nat i) sector_status_address 0.

Definition payload_address_of (i : Z) : Z :=
  nth (Z.to_nat i) sector_address 0.

Definition slot_status (m : Z -> byte) (i : Z) : byte :=
  m (status_address_of i).

Definition slot_active (m : Z -> byte) (i : Z) : bool :=
  Byte.eqb (slot_status m i) SECTOR_ACTIVE.

Definition slot_payload (m : Z -> byte) (i : Z) (n : nat) : list byte :=
  read_bytes m (payload_address_of i) n.

(** The slots whose status byte is [SECTOR_ACTIVE], in ascending order. *)
Definition active_slots (m : Z -> byte) : list Z :=
  List.filter (slot_active m) sectors.

(** Number of payload writes that slot [i] received in a run of the log. *)
Definition is_payload_write (i : Z) (e : event) : bool :=
  match e with
  | EvWrite a _ => a =? payload_address_of i
  | EvRead _ _ => false
  end.

Definition payload_writes (i : Z) (l : list event) : nat :=
  length (List.filter (is_payload_write i) l).

(** The two transport writes of a sector clear, in the words of the
    specification: status = inactive, then a zeroed record. *)
Definition clear_events (i : Z) : list event :=
  [EvWrite (status_address_of i) [SECTOR_INACTIVE];
   EvWrite (payload_address_of i) (replicate sizeof_struct_data_t x00)].

Definition after_clear (d : device) (i : Z) : device :=
  {| mem := store_bytes
              (store_bytes (mem d) (status_address_of i) [SECTOR_INACTIVE])
              (payload_address_of i) (replicate sizeof_struct_data_t x00);
     log := log d ++ clear_events i |}.

(** The three transport writes of an update from slot [current], in the
    words of the specification, and the device they leave. *)
Definition next_slot (current : Z) : Z := (current + 1) mod NUMBER_OF_SECTORS.

Definition write_events (current : Z) (bytes : list byte) : list event :=
  [EvWrite (status_address_of current) [SECTOR_INACTIVE];
   EvWrite (status_address_of (next_slot current)) [SECTOR_ACTIVE];
   EvWrite (payload_address_of (next_slot current)) bytes].

Definition after_write (d : device) (current : Z) (bytes : list byte)
  : device :=
  {| mem := store_bytes
              (store_bytes
                 (store_bytes (mem d) (status_address_of current)
                              [SECTOR_INACTIVE])
                 (status_address_of (next_slot current)) [SECTOR_ACTIVE])
              (payload_address_of (next_slot current)) bytes;
     log := log d ++ write_events current bytes |}.

(** The device after the recovery path of [eeprom_sector_load] has cleared
    every slot, activated slot 0 and stored [bytes] as its payload. *)
Definition after_bootstrap (d : device) (bytes : list byte) : device :=
  let d0 := fold_left after_clear sectors d in
  {| mem := store_bytes
              (store_bytes (mem d0) (status_address_of 0) [SECTOR_ACTIVE])
              (payload_address_of 0) bytes;
     log := log d0 ++ [EvWrite (status_address_of 0) [SECTOR_ACTIVE];
                       EvWrite (payload_address_of 0) bytes] |}.

(** The slots that [k] updates in a row go through when the first starts
    from slot [s], in the words of the specification: the [i]-th of them
    lands on slot (s + i) mod N. *)
Definition rotation (s : Z) (k : nat) : list Z :=
  map (fun i => (s + Z.of_nat i + 1) mod NUMBER_OF_SECTORS) (seq 0 k).

(** Number of times slot [j] occurs in a list of slots. *)
Definition occurrences (j : Z) (l : list Z) : nat :=
  length (List.filter (Z.eqb j) l).

(** The value a computation returns, without the device. *)
Definition result {A} (o : option (A * device)) : option A :=
  option_map fst o.

(** Bytes between a slot's payload address and the status address of the
    slot that follows it in the tables. *)
Definition slot_capacity : Z := 0x1000 - 2.

(** What the loop of [eeprom_sector_load] keeps true of its staging record
    when it reads [size] bytes at a time: the record has its 66 bytes, and
    those past [size] are still the zeros of the initialiser. *)
Definition staging_ok (size : Z) (sector : list byte) : Prop :=
  length sector = sizeof_struct_data_t
  /\ drop (Z.to_nat size) sector
     = replicate (sizeof_struct_data_t - Z.to_nat size) x00.

(** The slots [i], [i + 1], ..., [k - 1]. *)
Definition slots_between (i k : Z) : list Z :=
  map (fun n => i + Z.of_nat n) (seq 0 (Z.to_nat (k - i))).

(** The transport calls of a visit of the scan to slot [j]: the status byte
    is read, and the payload only if the slot is active. *)
Definition probe_events (m : Z -> byte) (size : Z) (j : Z) : list event :=
  EvRead (status_address_of j) 1
  :: if slot_active m j
     then [EvRead (payload_address_of j) (Z.to_nat size)]
     else [].

(** The transport calls of a scan that visits the slots of [l] in turn. *)
Definition scan_events (m : Z -> byte) (size : Z) (l : list Z) : list event :=
  concat (map (probe_events m size) l).

(** The device with [evs] appended to its log and the same memory. *)
Definition add_log (d : device) (evs : list event) : device :=
  {| mem := mem d; log := log d ++ evs |}.

(** ** Callers and observations that depend on the integrity primitive *)

Section Observations.

Variable calculate_crc16 : list byte -> Z.
Variable endian : endianness.

Local Open Scope c_scope.

(** The caller's side of a run of updates: every buffer is written in
    turn, the index one call returns being passed to the next.  The
    result lists the returned indices. *)
Fixpoint write_all (buffers : list (list byte)) (size : Z)
    (current_sector : Z) : M (list Z) :=
  match buffers with
  | [] => ret []
  | b :: bs =>
      s <- eeprom_sector_write b size current_sector ;;
      l <- write_all bs size s ;;
      ret (s :: l)
  end.

(** An update followed by a load, as the caller of the round trip runs
    them: the index of the update, and the index and buffer of the load. *)
Definition write_then_load (buffer out_buffer : list byte) (size : Z)
    (current_sector : Z) : M (Z * (Z * list byte)) :=
  new_sector <- eeprom_sector_write buffer size current_sector ;;
  loaded <- eeprom_sector_load calculate_crc16 endian out_buffer size ;;
  ret (new_sector, loaded).

(** ** The record format in the words of the specification

    A blob ends in a correct CRC when its last two bytes hold, in the
    byte order of the platform, the CRC-16 of all the bytes before
    them. *)
Definition trailing_crc_ok (blob : list byte) : bool :=
  let n := (length blob - 2)%nat in
  calculate_crc16 (take n blob)
  =? u16_of_bytes endian (nth n blob x00) (nth (S n) blob x00).

(** The staging record of [eeprom_sector_load] once [size] bytes of slot
    [i] have been read into it: the bytes past [size] are those of the
    initialiser [{0}]. *)
Definition staged (m : Z -> byte) (i : Z) (size : Z) : list byte :=
  slot_payload m i (Z.to_nat size)
  ++ replicate (sizeof_struct_data_t - Z.to_nat size) x00.

(** Slot [i] passes the test of line 78. *)
Definition crc_validates (m : Z -> byte) (i : Z) (size : Z) : bool :=
  match crc_matches calculate_crc16 endian (staged m i size) size with
  | Some ok => ok
  | None => false
  end.

(** Slot [i] is active and passes the test of line 78. *)
Definition slot_validates (m : Z -> byte) (i : Z) (size : Z) : bool :=
  slot_active m i && crc_validates m i size.

End Observations.

(** ** A deployment to evaluate the code on

    The integrity primitive of the examples is CRC-16/CCITT-FALSE
    (polynomial 0x1021, initial value 0xFFFF), computed bit by bit. *)

Definition crc16_shift (crc : Z) : Z :=
  if Z.testbit crc 15
  then Z.land (Z.lxor (Z.shiftl crc 1) 0x1021) 0xFFFF
  else Z.land (Z.shiftl crc 1) 0xFFFF.

Definition crc16_update (crc : Z) (b : byte) : Z :=
  Nat.iter 8 crc16_shift (Z.lxor crc (Z.shiftl (Z.of_N (Byte.to_N b)) 8)).

Definition crc16_ccitt (data : list byte) : Z :=
  fold_left crc16_update data 0xFFFF.

Definition byte_of_Z (z : Z) : byte :=
  match Byte.of_N (Z.to_N (z mod 2 ^ 8)) with
  | Some b => b
  | None => x00
  end.

(** [data] followed by its CRC in little-endian order. *)
Definition with_crc (data : list byte) : list byte :=
  let c := crc16_ccitt data in
  data ++ [byte_of_Z c; byte_of_Z (Z.shiftr c 8)].

(** The bytes 1, 2, ..., [n]. *)
Definition counting (n : nat) : list byte :=
  map (fun i => byte_of_Z (Z.of_nat i)) (seq 1 n).

(** A record of the declared size: 64 data bytes and their CRC. *)
Definition example_record : list byte := with_crc (counting DATA_LENGTH).

(** A short record: 2 data bytes and their CRC. *)
Definition short_record : list byte := with_crc (counting 2).

(** A caller's buffer that holds no zero byte. *)
Definition scratch (n : nat) : list byte := replicate n xaa.

(** A device fresh from the factory: every byte reads 0xFF. *)
Definition virgin : device := {| mem := fun _ => xff; log := [] |}.

(** The memory [m] with the status byte and the payload of slot [i] set. *)
Definition put_slot (m : Z -> byte) (i : Z) (status : byte)
    (payload : list byte) : Z -> byte :=
  store_bytes (store_bytes m (status_address_of i) [status])
              (payload_address_of i) payload.

(** A device whose slot [i] alone is active and holds [payload]. *)
Definition device_with (i : Z) (payload : list byte) : device :=
  {| mem := put_slot (fun _ => x00) i SECTOR_ACTIVE payload; log := [] |}.

(** [example_record] with its first byte flipped. *)
Definition corrupt_record : list byte := xfe :: drop 1 example_record.

(** Another record of the declared size. *)
Definition other_record : list byte := with_crc (replicate DATA_LENGTH x07).

(** A device with two active slots: slots 1 and 3 are active and hold good
    records, and the inactive slot 0 holds a good record too. *)
Definition device_two_valid : device :=
  {| mem := put_slot
              (put_slot
                 (put_slot (fun _ => x00) 0 SECTOR_INACTIVE example_record)
                 1 SECTOR_ACTIVE example_record)
              3 SECTOR_ACTIVE other_record;
     log := [] |}.

(** A device with three active slots: slot 0 is active and holds a
    corrupted record, slot 1 is inactive and holds a good record, slots 2
    and 3 are active and hold good records. *)
Definition device_mixed : device :=
  {| mem := put_slot
              (put_slot
                 (put_slot
                    (put_slot (fun _ => x00) 0 SECTOR_ACTIVE corrupt_record)
                    1 SECTOR_INACTIVE example_record)
                 2 SECTOR_ACTIVE other_record)
              3 SECTOR_ACTIVE example_record;
     log := [] |}.

(** Four bytes that do not end in their CRC: the CRC-16 of the first two
    is 0, and the last two are not. *)
Definition wrong_record : list byte := [xff; xff; x12; x34].

(** The fresh device after its first load: the four status bytes have been
    read, and the recovery path has run. *)
Definition bootstrapped : device :=
  after_bootstrap
    (add_log virgin (map (fun i => EvRead (status_address_of i) 1) sectors))
    (replicate sizeof_struct_data_t x00).

(** Number of writes that the status byte of slot [i] received in a run of
    the log. *)
Definition is_status_write (i : Z) (e : event) : bool :=
  match e with
  | EvWrite a _ => a =? status_address_of i
  | EvRead _ _ => false
  end.

Definition status_writes (i : Z) (l : list event) : nat :=
  length (List.filter (is_status_write i) l).

(** ** Updates cut short

    The memory after the transport writes of [evs] have taken effect in
    turn, and the device an operation leaves when power is lost after its
    first [k] transport calls. *)

Definition apply_event (m : Z -> byte) (e : event) : Z -> byte :=
  match e with
  | EvWrite a data => store_bytes m a data
  | EvRead _ _ => m
  end.

Definition replay (m : Z -> byte) (evs : list event) : Z -> byte :=
  fold_left apply_event evs m.

Definition interrupted (d : device) (evs : list event) (k : nat) : device :=
  {| mem := replay (mem d) (take k evs); log := log d ++ take k evs |}.

(** The staging record of [eeprom_sector_load] after its loop has visited
    the slots of [l] without returning: every active slot it visits
    overwrites the record with its own bytes. *)
Definition staging_after_scan (m : Z -> byte) (size : Z) (l : list Z)
    (sector : list byte) : list byte :=
  fold_left (fun s j => if slot_active m j then staged m j size else s)
            l sector.

(** A device after a full rotation: slot 0 is active and holds
    [example_record]; slot 1 is inactive and still holds [other_record],
    written four updates earlier. *)
Definition device_rotated : device :=
  {| mem := put_slot
              (put_slot (fun _ => x00) 1 SECTOR_INACTIVE other_record)
              0 SECTOR_ACTIVE example_record;
     log := [] |}.

(** * Properties *)

(** ** The memory *)

Lemma read_bytes_length m a n : length (read_bytes m a n) = n.
Proof. unfold read_bytes. now rewrite length_map, length_seq. Qed.

Lemma read_bytes_nth m a n k d :
  (k < n)%nat -> nth k (read_bytes m a n) d = m (a + Z.of_nat k).
Proof.
  intros Hk. unfold read_bytes.
  rewrite (nth_indep _ d (m (a + Z.of_nat 0))) by
    (rewrite length_map, length_seq; lia).
  rewrite (map_nth (fun i => m (a + Z.of_nat i))).
  now rewrite seq_nth by lia.
Qed.

Lemma read_bytes_ext m1 m2 a n :
  (forall k, (k < n)%nat -> m1 (a + Z.of_nat k) = m2 (a + Z.of_nat k)) ->
  read_bytes m1 a n = read_bytes m2 a n.
Proof.
  intros H. unfold read_bytes. apply map_ext_in.
  intros k Hk. apply in_seq in Hk. apply H. lia.
Qed.

Lemma store_bytes_outside m a data x :
  x < a \/ a + Z.of_nat (length data) <= x -> store_bytes m a data x = m x.
Proof.
  intros H. unfold store_bytes.
  destruct (a <=? x) eqn:E1; [|reflexivity].
  destruct (x <? a + Z.of_nat (length data)) eqn:E2; [|reflexivity].
  lia.
Qed.

Lemma store_bytes_inside m a data k :
  (k < length data)%nat ->
  store_bytes m a data (a + Z.of_nat k) = nth k data x00.
Proof.
  intros H. unfold store_bytes.
  replace (a <=? a + Z.of_nat k) with true by lia.
  replace (a + Z.of_nat k <? a + Z.of_nat (length data)) with true by lia.
  simpl. f_equal. lia.
Qed.

Lemma read_bytes_store_same m a data :
  read_bytes (store_bytes m a data) a (length data) = data.
Proof.
  apply (nth_ext _ _ x00 x00).
  - apply read_bytes_length.
  - intros k Hk. rewrite read_bytes_length in Hk.
    rewrite read_bytes_nth by assumption. now apply store_bytes_inside.
Qed.

Lemma read_bytes_store_outside m a data a' n :
  a' + Z.of_nat n <= a \/ a + Z.of_nat (length data) <= a' ->
  read_bytes (store_bytes m a data) a' n = read_bytes m a' n.
Proof.
  intros H. apply read_bytes_ext. intros k Hk.
  apply store_bytes_outside. lia.
Qed.

(** ** Running the monad *)

Lemma bind_run {A B} (m : M A) (k : A -> M B) d a d' :
  m d = Some (a, d') -> bind m k d = k a d'.
Proof. intros H. unfold bind. now rewrite H. Qed.

Lemma eeprom_write_run a data size d :
  0 <= size <= Z.of_nat (length data) ->
  eeprom_write a data size d
  = Some (tt, {| mem := store_bytes (mem d) a (take (Z.to_nat size) data);
                 log := log d ++ [EvWrite a (take (Z.to_nat size) data)] |}).
Proof.
  intros H. unfold eeprom_write.
  now replace (size <=? Z.of_nat (length data)) with true by lia.
Qed.

Lemma eeprom_read_run a dst size d :
  0 <= size <= Z.of_nat (length dst) ->
  eeprom_read a dst size d
  = Some (read_bytes (mem d) a (Z.to_nat size) ++ drop (Z.to_nat size) dst,
          add_log d [EvRead a (Z.to_nat size)]).
Proof.
  intros H. unfold eeprom_read.
  now replace (size <=? Z.of_nat (length dst)) with true by lia.
Qed.

Lemma sector_cases i :
  0 <= i < NUMBER_OF_SECTORS -> i = 0 \/ i = 1 \/ i = 2 \/ i = 3.
Proof. unfold NUMBER_OF_SECTORS. lia. Qed.

(** Arithmetic over the constants of the layout. *)
Ltac sizes :=
  unfold sizeof_struct_data_t, slot_capacity, NUMBER_OF_SECTORS in *; lia.

Ltac each_sector i H :=
  apply sector_cases in H; destruct H as [-> | [-> | [-> | ->]]].

(** ** The sector tables *)

Lemma lift_index_status i d :
  0 <= i < NUMBER_OF_SECTORS ->
  lift (index sector_status_address i) d = Some (status_address_of i, d).
Proof. intros H. each_sector i H; reflexivity. Qed.

Lemma lift_index_payload i d :
  0 <= i < NUMBER_OF_SECTORS ->
  lift (index sector_address i) d = Some (payload_address_of i, d).
Proof. intros H. each_sector i H; reflexivity. Qed.

Lemma next_slot_range i : 0 <= next_slot i < NUMBER_OF_SECTORS.
Proof. unfold next_slot, NUMBER_OF_SECTORS. apply Z.mod_pos_bound. lia. Qed.

Lemma wrap8_sector i : 0 <= i < NUMBER_OF_SECTORS -> wrap8 i = i.
Proof.
  unfold NUMBER_OF_SECTORS, wrap8. intros H. apply Z.mod_small. lia.
Qed.

Lemma wrap8_succ_sector i :
  0 <= i < NUMBER_OF_SECTORS -> wrap8 (i + 1) = i + 1.
Proof.
  unfold NUMBER_OF_SECTORS, wrap8. intros H. apply Z.mod_small. lia.
Qed.

(** A step of a computation whose outcome is known. *)
Ltac step lem :=
  erewrite bind_run by
    (apply lem; first [assumption | unfold NUMBER_OF_SECTORS; cbn; lia]).

(** ** Update: [eeprom_sector_write] *)

Lemma eeprom_sector_write_run d buffer size current_sector :
  0 <= current_sector < NUMBER_OF_SECTORS ->
  0 <= size <= Z.of_nat (length buffer) ->
  eeprom_sector_write buffer size current_sector d
  = Some (next_slot current_sector,
          after_write d current_sector (take (Z.to_nat size) buffer)).
Proof.
  intros Hc Hs. unfold eeprom_sector_write.
  fold (next_slot current_sector).
  rewrite (wrap8_sector (next_slot current_sector)) by apply next_slot_range.
  pose proof (next_slot_range current_sector) as Hn.
  step lift_index_status. step eeprom_write_run.
  step lift_index_status. step eeprom_write_run.
  step lift_index_payload. step eeprom_write_run.
  unfold ret, after_write, write_events. cbn -[store_bytes take].
  now rewrite <- !app_assoc.
Qed.

(** C2: for a slot index in range, [eeprom_sector_write] issues exactly three
    transport calls, all writes and in this order: status = inactive at the
    current slot's status address, status = active at the next slot's status
    address, [size] bytes of the buffer at the next slot's payload address;
    it returns the next slot, (current + 1) mod N. *)
Theorem write_issues_three_writes_in_order d buffer size current_sector :
  0 <= current_sector < NUMBER_OF_SECTORS ->
  0 <= size <= Z.of_nat (length buffer) ->
  exists d',
    eeprom_sector_write buffer size current_sector d
    = Some ((current_sector + 1) mod NUMBER_OF_SECTORS, d')
    /\ log d'
       = log d
         ++ [EvWrite (status_address_of current_sector) [SECTOR_INACTIVE];
             EvWrite (status_address_of
                        ((current_sector + 1) mod NUMBER_OF_SECTORS))
                     [SECTOR_ACTIVE];
             EvWrite (payload_address_of
                        ((current_sector + 1) mod NUMBER_OF_SECTORS))
                     (take (Z.to_nat size) buffer)].
Proof.
  intros Hc Hs. eexists. split.
  - now apply eeprom_sector_write_run.
  - reflexivity.
Qed.

(** ** Clearing: [setting_sector_clear] and [eeprom_all_sectors_clear] *)

Lemma setting_sector_clear_run d sector :
  0 <= sector < NUMBER_OF_SECTORS ->
  setting_sector_clear sector d = Some (tt, after_clear d sector).
Proof.
  intros Hs. unfold setting_sector_clear.
  step lift_index_status. step eeprom_write_run.
  step lift_index_payload.
  rewrite eeprom_write_run by (rewrite length_replicate; lia).
  unfold after_clear, clear_events. cbn -[store_bytes].
  now rewrite <- !app_assoc.
Qed.

Lemma eeprom_all_sectors_clear_run d :
  eeprom_all_sectors_clear d = Some (tt, fold_left after_clear sectors d).
Proof.
  unfold eeprom_all_sectors_clear, setting_system_state_clear.
  change (Z.to_nat NUMBER_OF_SECTORS) with 4%nat. cbn [for_sectors].
  change (wrap8 (0 + 1)) with 1. change (wrap8 (1 + 1)) with 2.
  change (wrap8 (2 + 1)) with 3.
  step setting_sector_clear_run. step setting_sector_clear_run.
  step setting_sector_clear_run. step setting_sector_clear_run.
  reflexivity.
Qed.

Lemma fold_after_clear_log l d :
  log (fold_left after_clear l d) = log d ++ concat (map clear_events l).
Proof.
  revert d. induction l as [|i l IH]; intros d; cbn [fold_left map concat].
  - now rewrite app_nil_r.
  - rewrite IH. unfold after_clear. cbn [log]. now rewrite <- app_assoc.
Qed.

Lemma all_cleared_slot d i :
  0 <= i < NUMBER_OF_SECTORS ->
  slot_status (mem (fold_left after_clear sectors d)) i = SECTOR_INACTIVE
  /\ slot_payload (mem (fold_left after_clear sectors d)) i
                  sizeof_struct_data_t
     = replicate sizeof_struct_data_t x00.
Proof.
  intros Hi. each_sector i Hi; split; vm_compute; reflexivity.
Qed.

(** C9: for a slot index in range, [setting_sector_clear] writes status =
    inactive to the slot's status address and then a zeroed record of
    [sizeof(struct_data_t)] bytes to its payload address;
    [eeprom_all_sectors_clear] does so for the slots 0, 1, ..., N-1 in this
    order, and leaves every slot inactive with a zeroed payload. *)
Theorem clear_sector_and_clear_all d sector :
  0 <= sector < NUMBER_OF_SECTORS ->
  (exists d1,
      setting_sector_clear sector d = Some (tt, d1)
      /\ log d1
         = log d
           ++ [EvWrite (status_address_of sector) [SECTOR_INACTIVE];
               EvWrite (payload_address_of sector)
                       (replicate sizeof_struct_data_t x00)])
  /\ (exists d2,
         eeprom_all_sectors_clear d = Some (tt, d2)
         /\ log d2 = log d ++ concat (map clear_events sectors)
         /\ forall i,
              0 <= i < NUMBER_OF_SECTORS ->
              slot_status (mem d2) i = SECTOR_INACTIVE
              /\ slot_payload (mem d2) i sizeof_struct_data_t
                 = replicate sizeof_struct_data_t x00).
Proof.
  intros Hs. split.
  - exists (after_clear d sector). split.
    + now apply setting_sector_clear_run.
    + reflexivity.
  - exists (fold_left after_clear sectors d). split; [|split].
    + apply eeprom_all_sectors_clear_run.
    + apply fold_after_clear_log.
    + intros i Hi. now apply all_cleared_slot.
Qed.

(** ** The slots after an update *)

Lemma status_address_value i :
  0 <= i < NUMBER_OF_SECTORS -> status_address_of i = 0x1000 * i.
Proof. intros H. each_sector i H; reflexivity. Qed.

Lemma payload_address_value i :
  0 <= i < NUMBER_OF_SECTORS -> payload_address_of i = 0x1000 * i + 2.
Proof. intros H. each_sector i H; reflexivity. Qed.

Lemma store_status_byte m i b j :
  0 <= i < NUMBER_OF_SECTORS -> 0 <= j < NUMBER_OF_SECTORS ->
  slot_status (store_bytes m (status_address_of i) [b]) j
  = if j =? i then b else slot_status m j.
Proof.
  intros Hi Hj. unfold slot_status. destruct (j =? i) eqn:E.
  - apply Z.eqb_eq in E. subst j.
    replace (status_address_of i) with (status_address_of i + Z.of_nat 0)
      at 2 by lia.
    now rewrite store_bytes_inside by (cbn; lia).
  - apply Z.eqb_neq in E. apply store_bytes_outside.
    rewrite !status_address_value by assumption. cbn [length]. lia.
Qed.

Lemma store_payload_status m i data j :
  0 <= i < NUMBER_OF_SECTORS -> 0 <= j < NUMBER_OF_SECTORS ->
  Z.of_nat (length data) <= slot_capacity ->
  slot_status (store_bytes m (payload_address_of i) data) j = slot_status m j.
Proof.
  intros Hi Hj Hl. unfold slot_status. apply store_bytes_outside.
  rewrite status_address_value, payload_address_value by assumption.
  unfold slot_capacity in Hl. lia.
Qed.

Lemma slot_status_after_write d current bytes j :
  0 <= current < NUMBER_OF_SECTORS -> 0 <= j < NUMBER_OF_SECTORS ->
  Z.of_nat (length bytes) <= slot_capacity ->
  slot_status (mem (after_write d current bytes)) j
  = if j =? next_slot current then SECTOR_ACTIVE
    else if j =? current then SECTOR_INACTIVE
    else slot_status (mem d) j.
Proof.
  intros Hc Hj Hl. pose proof (next_slot_range current) as Hn.
  unfold after_write. cbn [mem].
  rewrite store_payload_status by assumption.
  now rewrite !store_status_byte by assumption.
Qed.

Lemma slot_payload_after_write d current bytes :
  slot_payload (mem (after_write d current bytes)) (next_slot current)
               (length bytes)
  = bytes.
Proof. unfold after_write, slot_payload. cbn [mem]. apply read_bytes_store_same. Qed.

Lemma active_slots_single m c :
  0 <= c < NUMBER_OF_SECTORS ->
  active_slots m = [c]
  <-> forall j, 0 <= j < NUMBER_OF_SECTORS -> slot_active m j = (j =? c).
Proof.
  intros Hc. unfold active_slots.
  change sectors with [0; 1; 2; 3]. cbn [List.filter].
  split.
  - intros H j Hj.
    destruct (slot_active m 0) eqn:E0, (slot_active m 1) eqn:E1,
             (slot_active m 2) eqn:E2, (slot_active m 3) eqn:E3;
      cbn [List.filter] in H; try discriminate H; injection H as <-;
      each_sector j Hj; assumption.
  - intros H.
    rewrite (H 0), (H 1), (H 2), (H 3) by (unfold NUMBER_OF_SECTORS; lia).
    each_sector c Hc; reflexivity.
Qed.

Lemma active_slots_in_range m c l :
  active_slots m = c :: l -> 0 <= c < NUMBER_OF_SECTORS.
Proof.
  intros H.
  assert (Hin : In c (active_slots m)) by (rewrite H; now left).
  unfold active_slots in Hin. apply filter_In in Hin as [Hin _].
  unfold sectors in Hin. apply in_map_iff in Hin as (k & <- & Hk).
  apply in_seq in Hk. unfold NUMBER_OF_SECTORS in *. lia.
Qed.

Lemma active_slots_after_write d current bytes :
  active_slots (mem d) = [current] ->
  Z.of_nat (length bytes) <= slot_capacity ->
  active_slots (mem (after_write d current bytes)) = [next_slot current].
Proof.
  intros Ha Hl. pose proof (active_slots_in_range _ _ _ Ha) as Hc.
  pose proof (next_slot_range current) as Hn.
  apply active_slots_single; [assumption|]. intros j Hj.
  apply (active_slots_single _ _ Hc) with (j := j) in Ha; [|assumption].
  unfold slot_active in *. rewrite slot_status_after_write by assumption.
  destruct (j =? next_slot current); [reflexivity|].
  destruct (j =? current); [reflexivity|]. assumption.
Qed.

Section Integrity.

Variable calculate_crc16 : list byte -> Z.
Variable endian : endianness.

Abbreviation crc_matches := (crc_matches calculate_crc16 endian).
Abbreviation crc_validates := (crc_validates calculate_crc16 endian).
Abbreviation slot_validates := (slot_validates calculate_crc16 endian).
Abbreviation trailing_crc_ok := (trailing_crc_ok calculate_crc16 endian).
Abbreviation load_body := (load_body calculate_crc16 endian).
Abbreviation load_scan := (load_scan calculate_crc16 endian).
Abbreviation eeprom_sector_load := (eeprom_sector_load calculate_crc16 endian).
Abbreviation write_then_load := (write_then_load calculate_crc16 endian).

(** ** The staging record *)

Lemma staging_ok_initial size :
  staging_ok size (replicate sizeof_struct_data_t x00).
Proof.
  split; [apply length_replicate | apply drop_replicate].
Qed.

Lemma staged_length m i size :
  0 <= size <= Z.of_nat sizeof_struct_data_t ->
  length (staged m i size) = sizeof_struct_data_t.
Proof.
  intros H. unfold staged, slot_payload.
  rewrite length_app, read_bytes_length, length_replicate. lia.
Qed.

Lemma staging_ok_staged m i size :
  0 <= size <= Z.of_nat sizeof_struct_data_t ->
  staging_ok size (staged m i size).
Proof.
  intros H. split; [now apply staged_length|].
  unfold staged, slot_payload.
  now rewrite drop_app_length' by now rewrite read_bytes_length.
Qed.

Lemma take_staged m i size :
  take (Z.to_nat size) (staged m i size) = slot_payload m i (Z.to_nat size).
Proof.
  unfold staged, slot_payload.
  now rewrite take_app_length' by now rewrite read_bytes_length.
Qed.

Lemma read_into_staging m i size sector :
  staging_ok size sector ->
  slot_payload m i (Z.to_nat size) ++ drop (Z.to_nat size) sector
  = staged m i size.
Proof. intros [_ H]. unfold staged. now rewrite H. Qed.

Lemma crc_matches_staged m i size :
  2 <= size <= Z.of_nat sizeof_struct_data_t ->
  crc_matches (staged m i size) size = Some (crc_validates m i size).
Proof.
  intros H. unfold crc_validates, crc_matches.
  rewrite staged_length by lia.
  assert (wrap32 (size - 2) = size - 2) as ->.
  { unfold wrap32. apply Z.mod_small. sizes. }
  now replace (size - 2 <=? Z.of_nat sizeof_struct_data_t) with true by lia.
Qed.

(** ** One iteration of the scan *)

Lemma load_body_run d i sector buffer size :
  0 <= i < NUMBER_OF_SECTORS ->
  2 <= size <= Z.of_nat sizeof_struct_data_t ->
  size <= Z.of_nat (length buffer) ->
  staging_ok size sector ->
  load_body i sector buffer size d
  = Some
      (if slot_active (mem d) i then
         if crc_validates (mem d) i size
         then Found i (slot_payload (mem d) i (Z.to_nat size)
                       ++ drop (Z.to_nat size) buffer)
         else NotFound (staged (mem d) i size)
       else NotFound sector,
       add_log d
         (EvRead (status_address_of i) 1
          :: if slot_active (mem d) i
             then [EvRead (payload_address_of i) (Z.to_nat size)]
             else [])).
Proof.
  intros Hi Hs Hb Hok. unfold load_body.
  step lift_index_status. step eeprom_read_run.
  assert (Hst : nth 0 (read_bytes (mem d) (status_address_of i) (Z.to_nat 1)
                       ++ drop (Z.to_nat 1) [x00]) x00
                = slot_status (mem d) i).
  { change (Z.to_nat 1) with 1%nat. unfold read_bytes, slot_status.
    cbn [seq map app nth]. f_equal. lia. }
  rewrite Hst.
  change (Byte.eqb (slot_status (mem d) i) SECTOR_ACTIVE)
    with (slot_active (mem d) i).
  destruct (slot_active (mem d) i); [|reflexivity].
  step lift_index_payload.
  erewrite bind_run by
    (apply eeprom_read_run; destruct Hok as [Hl _]; rewrite Hl; lia).
  cbn [mem add_log]. fold (slot_payload (mem d) i (Z.to_nat size)).
  rewrite read_into_staging by assumption.
  erewrite bind_run by
    (unfold lift; rewrite crc_matches_staged by assumption; reflexivity).
  unfold add_log. cbn [mem log]. rewrite <- app_assoc. cbn [app].
  destruct (crc_validates (mem d) i size); [|reflexivity].
  unfold memcpy. rewrite staged_length by lia.
  replace (size <=? Z.of_nat (length buffer)) with true by lia.
  replace (size <=? Z.of_nat sizeof_struct_data_t) with true by lia.
  cbn [andb]. unfold bind, lift, ret. now rewrite take_staged.
Qed.

Lemma writes_of_app l1 l2 : writes_of (l1 ++ l2) = writes_of l1 ++ writes_of l2.
Proof. apply List.filter_app. Qed.

Lemma mem_add_log d evs : mem (add_log d evs) = mem d.
Proof. reflexivity. Qed.

Lemma slots_between_cons i k :
  i < k -> slots_between i k = i :: slots_between (i + 1) k.
Proof.
  intros H. unfold slots_between.
  replace (Z.to_nat (k - i)) with (S (Z.to_nat (k - (i + 1)))) by lia.
  cbn [seq map]. f_equal; [lia|].
  rewrite <- seq_shift, map_map. apply map_ext. intros n. lia.
Qed.

Lemma slots_between_nil i : slots_between i i = [].
Proof. unfold slots_between. now rewrite Z.sub_diag. Qed.

Lemma scan_events_cons m size j l :
  scan_events m size (j :: l) = probe_events m size j ++ scan_events m size l.
Proof. reflexivity. Qed.

(** A scan only reads. *)
Lemma writes_of_scan_events m size l : writes_of (scan_events m size l) = [].
Proof.
  induction l as [|j l IH]; [reflexivity|].
  rewrite scan_events_cons, writes_of_app, IH. unfold probe_events.
  now destruct (slot_active m j).
Qed.

Lemma writes_of_after_scan l m size l' :
  writes_of (l ++ scan_events m size l') = writes_of l.
Proof. now rewrite writes_of_app, writes_of_scan_events, app_nil_r. Qed.

(** ** The scan

    The loop visits the slots in ascending order and issues reads only.  It
    returns from the first slot that is active and validates, with that
    slot's payload copied over the caller's buffer; or it falls through
    when no slot does, and then the staging record is untouched unless some
    slot was active. *)
Lemma load_scan_run buffer size remaining :
  2 <= size <= Z.of_nat sizeof_struct_data_t ->
  size <= Z.of_nat (length buffer) ->
  forall i sector d,
    0 <= i -> i + Z.of_nat remaining = NUMBER_OF_SECTORS ->
    staging_ok size sector ->
    exists r d',
      load_scan remaining i sector buffer size d = Some (r, d')
      /\ mem d' = mem d
      /\ match r with
         | Found k b =>
             i <= k < NUMBER_OF_SECTORS
             /\ log d'
                = log d ++ scan_events (mem d) size (slots_between i (k + 1))
             /\ slot_validates (mem d) k size = true
             /\ (forall j, i <= j < k -> slot_validates (mem d) j size = false)
             /\ b = slot_payload (mem d) k (Z.to_nat size)
                    ++ drop (Z.to_nat size) buffer
         | NotFound s =>
             log d'
             = log d ++ scan_events (mem d) size
                                    (slots_between i NUMBER_OF_SECTORS)
             /\ (forall j, i <= j < NUMBER_OF_SECTORS ->
                           slot_validates (mem d) j size = false)
             /\ staging_ok size s
             /\ ((forall j, i <= j < NUMBER_OF_SECTORS ->
                            slot_active (mem d) j = false) ->
                 s = sector)
         end.
Proof.
  intros Hs Hb. induction remaining as [|k IH]; intros i sector d Hi Hrem Hok.
  - exists (NotFound sector), d. cbn [load_scan].
    split; [reflexivity|]. split; [reflexivity|].
    replace i with NUMBER_OF_SECTORS by lia.
    rewrite slots_between_nil. cbn [scan_events map concat].
    split; [now rewrite app_nil_r|].
    split; [intros; lia|]. split; [assumption|reflexivity].
  - cbn [load_scan].
    erewrite bind_run by (apply load_body_run; first [assumption | lia]).
    fold (probe_events (mem d) size i).
    assert (Hprobe : forall r d',
               log d' = log (add_log d (probe_events (mem d) size i))
                        ++ scan_events (mem d) size (slots_between (i + 1) r) ->
               i < r ->
               log d' = log d ++ scan_events (mem d) size (slots_between i r)).
    { intros r d' -> Hr. rewrite (slots_between_cons i r Hr), scan_events_cons.
      unfold add_log. cbn [log]. now rewrite app_assoc. }
    unfold slot_validates in *.
    destruct (slot_active (mem d) i) eqn:Ea;
      [destruct (crc_validates (mem d) i size) eqn:Ev|].
    + eexists _, _. split; [reflexivity|]. split; [reflexivity|].
      split; [lia|]. split.
      { apply Hprobe; [|lia]. rewrite slots_between_nil.
        cbn [scan_events map concat]. now rewrite app_nil_r. }
      split; [now rewrite Ea, Ev|]. split; [intros; lia|]. reflexivity.
    + rewrite wrap8_succ_sector by lia.
      destruct (IH (i + 1) (staged (mem d) i size)
                   (add_log d (probe_events (mem d) size i)))
        as (r & d' & Hrun & Hmem & Hpost);
        [lia | lia | apply staging_ok_staged; lia |].
      exists r, d'. split; [assumption|]. rewrite mem_add_log in *.
      split; [assumption|].
      destruct r as [k' b | s].
      * destruct Hpost as (Hk & Hlog & Hv & Hlow & ->).
        split; [lia|]. split; [apply Hprobe; [assumption | lia]|].
        split; [assumption|]. split; [|reflexivity].
        intros j Hj. destruct (Z.eq_dec j i) as [-> | Hne].
        -- now rewrite Ea, Ev.
        -- apply Hlow. lia.
      * destruct Hpost as (Hlog & Hnone & Hok' & _).
        split; [apply Hprobe; [assumption | lia]|].
        split; [|split; [assumption|]].
        -- intros j Hj. destruct (Z.eq_dec j i) as [-> | Hne].
           ++ now rewrite Ea, Ev.
           ++ apply Hnone. lia.
        -- intros Hina. rewrite Hina in Ea by lia. discriminate.
    + rewrite wrap8_succ_sector by lia.
      destruct (IH (i + 1) sector
                   (add_log d (probe_events (mem d) size i)))
        as (r & d' & Hrun & Hmem & Hpost);
        [lia | lia | assumption |].
      exists r, d'. split; [assumption|]. rewrite mem_add_log in *.
      split; [assumption|].
      destruct r as [k' b | s].
      * destruct Hpost as (Hk & Hlog & Hv & Hlow & ->).
        split; [lia|]. split; [apply Hprobe; [assumption | lia]|].
        split; [assumption|]. split; [|reflexivity].
        intros j Hj. destruct (Z.eq_dec j i) as [-> | Hne].
        -- now rewrite Ea.
        -- apply Hlow. lia.
      * destruct Hpost as (Hlog & Hnone & Hok' & Hsame).
        split; [apply Hprobe; [assumption | lia]|].
        split; [|split; [assumption|]].
        -- intros j Hj. destruct (Z.eq_dec j i) as [-> | Hne].
           ++ now rewrite Ea.
           ++ apply Hnone. lia.
        -- intros Hina. apply Hsame. intros j Hj. apply Hina. lia.
Qed.

(** Either no slot validates, or there is a first one that does. *)
Lemma first_valid_slot m size :
  (forall j, 0 <= j < NUMBER_OF_SECTORS -> slot_validates m j size = false)
  \/ exists k, 0 <= k < NUMBER_OF_SECTORS
              /\ slot_validates m k size = true
              /\ forall j, 0 <= j < k -> slot_validates m j size = false.
Proof.
  destruct (slot_validates m 0 size) eqn:E0;
    [right; exists 0; split; [sizes|]; split; [assumption|]; intros; lia|].
  destruct (slot_validates m 1 size) eqn:E1;
    [right; exists 1; split; [sizes|]; split; [assumption|];
     intros j Hj; assert (j = 0) as -> by lia; assumption|].
  destruct (slot_validates m 2 size) eqn:E2;
    [right; exists 2; split; [sizes|]; split; [assumption|];
     intros j Hj; assert (j = 0 \/ j = 1) as [-> | ->] by lia; assumption|].
  destruct (slot_validates m 3 size) eqn:E3;
    [right; exists 3; split; [sizes|]; split; [assumption|];
     intros j Hj; assert (j = 0 \/ j = 1 \/ j = 2) as [-> | [-> | ->]] by lia;
     assumption|].
  left. intros j Hj. each_sector j Hj; assumption.
Qed.

(** ** Load: the path that finds a slot *)

Lemma load_valid_path d buffer size k :
  2 <= size <= Z.of_nat sizeof_struct_data_t ->
  size <= Z.of_nat (length buffer) ->
  0 <= k < NUMBER_OF_SECTORS ->
  slot_validates (mem d) k size = true ->
  (forall j, 0 <= j < k -> slot_validates (mem d) j size = false) ->
  exists d',
    eeprom_sector_load buffer size d
    = Some ((k, slot_payload (mem d) k (Z.to_nat size)
                ++ drop (Z.to_nat size) buffer), d')
    /\ mem d' = mem d
    /\ log d' = log d ++ scan_events (mem d) size (slots_between 0 (k + 1)).
Proof.
  intros Hs Hb Hk Hv Hlow.
  destruct (load_scan_run buffer size (Z.to_nat NUMBER_OF_SECTORS) Hs Hb 0
              (replicate sizeof_struct_data_t x00) d)
    as (r & d' & Hrun & Hmem & Hpost);
    [lia | reflexivity | apply staging_ok_initial |].
  unfold eeprom_sector_load. rewrite (bind_run _ _ _ _ _ Hrun).
  destruct r as [k' b | s].
  - destruct Hpost as (Hk' & Hlog & Hv' & Hlow' & ->).
    assert (k' = k) as ->.
    { destruct (Z.lt_trichotomy k' k) as [Hlt | [Heq | Hgt]].
      - rewrite Hlow in Hv' by lia. discriminate.
      - assumption.
      - rewrite Hlow' in Hv by lia. discriminate. }
    exists d'. repeat split; assumption.
  - destruct Hpost as (_ & Hnone & _). rewrite Hnone in Hv by lia.
    discriminate.
Qed.

(** ** Load: the recovery path *)

Lemma load_bootstrap d buffer size :
  2 <= size <= Z.of_nat sizeof_struct_data_t ->
  size <= Z.of_nat (length buffer) ->
  (forall j, 0 <= j < NUMBER_OF_SECTORS ->
             slot_validates (mem d) j size = false) ->
  exists s,
    eeprom_sector_load buffer size d
    = Some ((0, buffer),
            after_bootstrap
              (add_log d (scan_events (mem d) size
                                      (slots_between 0 NUMBER_OF_SECTORS)))
              (take (Z.to_nat size) s))
    /\ staging_ok size s
    /\ ((forall j, 0 <= j < NUMBER_OF_SECTORS ->
                   slot_active (mem d) j = false) ->
        s = replicate sizeof_struct_data_t x00).
Proof.
  intros Hs Hb Hnone.
  destruct (load_scan_run buffer size (Z.to_nat NUMBER_OF_SECTORS) Hs Hb 0
              (replicate sizeof_struct_data_t x00) d)
    as (r & d' & Hrun & Hmem & Hpost);
    [lia | reflexivity | apply staging_ok_initial |].
  unfold eeprom_sector_load. rewrite (bind_run _ _ _ _ _ Hrun).
  destruct r as [k' b | s].
  - destruct Hpost as (Hk' & _ & Hv' & _). rewrite Hnone in Hv' by lia.
    discriminate.
  - destruct Hpost as (Hlog & _ & Hok & Hsame).
    exists s. split; [|now split].
    step eeprom_all_sectors_clear_run. step lift_index_status.
    step eeprom_write_run. step lift_index_payload.
    erewrite bind_run by
      (apply eeprom_write_run; destruct Hok as [Hl _]; rewrite Hl; lia).
    unfold ret, after_bootstrap. cbn -[store_bytes take fold_left].
    rewrite <- !app_assoc. cbn [app].
    assert (Hd : d' = add_log d (scan_events (mem d) size
                                   (slots_between 0 NUMBER_OF_SECTORS))).
    { destruct d' as [m' l']. cbn [mem log] in *. subst. reflexivity. }
    now rewrite Hd.
Qed.

(** C10: when some slot is active and validates, [eeprom_sector_load]
    returns without a single transport write: the memory of the device is
    what it was, and the log has gained reads only. *)
Theorem valid_load_issues_no_write d buffer size :
  2 <= size <= Z.of_nat sizeof_struct_data_t ->
  size <= Z.of_nat (length buffer) ->
  (exists j, 0 <= j < NUMBER_OF_SECTORS
             /\ slot_validates (mem d) j size = true) ->
  exists k out d',
    eeprom_sector_load buffer size d = Some ((k, out), d')
    /\ mem d' = mem d
    /\ writes_of (log d') = writes_of (log d).
Proof.
  intros Hs Hb (j & Hj & Hv).
  destruct (first_valid_slot (mem d) size) as [Hnone | (k & Hk & Hvk & Hlow)].
  - rewrite Hnone in Hv by assumption. discriminate.
  - destruct (load_valid_path d buffer size k Hs Hb Hk Hvk Hlow)
      as (d' & Hrun & Hmem & Hlog).
    eexists _, _, d'. split; [exact Hrun|]. split; [assumption|].
    rewrite Hlog. apply writes_of_after_scan.
Qed.

(** ** The CRC test at the declared record size *)

Lemma staged_record m i :
  staged m i (Z.of_nat sizeof_struct_data_t)
  = slot_payload m i sizeof_struct_data_t.
Proof.
  unfold staged. rewrite Nat2Z.id, Nat.sub_diag. apply app_nil_r.
Qed.

Lemma crc_validates_record m i :
  crc_validates m i (Z.of_nat sizeof_struct_data_t)
  = trailing_crc_ok (slot_payload m i sizeof_struct_data_t).
Proof.
  unfold crc_validates, crc_matches,
    trailing_crc_ok, sector_crc.
  rewrite staged_record. unfold slot_payload.
  rewrite read_bytes_length. reflexivity.
Qed.

(** C3, for [size = sizeof(struct_data_t)]: [eeprom_sector_load] visits
    the slots in ascending order, reading each status byte and the payload
    of the active slots only, and returns the first slot that is active and
    whose 66-byte payload ends in the CRC-16 of the 64 bytes before it, with
    that payload copied into the caller's buffer.  Lower slots are passed
    over when they are inactive, whatever they hold, or when their record
    does not end in its CRC; nothing is asked of the slots above: when two
    active slots hold good records, the lower one is returned. *)
Theorem load_returns_first_valid_slot d buffer k :
  Z.of_nat sizeof_struct_data_t <= Z.of_nat (length buffer) ->
  0 <= k < NUMBER_OF_SECTORS ->
  slot_active (mem d) k = true ->
  trailing_crc_ok (slot_payload (mem d) k sizeof_struct_data_t) = true ->
  (forall j, 0 <= j < k ->
             slot_active (mem d) j = false
             \/ trailing_crc_ok (slot_payload (mem d) j sizeof_struct_data_t)
                = false) ->
  exists d',
    eeprom_sector_load buffer (Z.of_nat sizeof_struct_data_t) d
    = Some ((k, slot_payload (mem d) k sizeof_struct_data_t
                ++ drop sizeof_struct_data_t buffer), d')
    /\ log d'
       = log d ++ scan_events (mem d) (Z.of_nat sizeof_struct_data_t)
                              (slots_between 0 (k + 1)).
Proof.
  intros Hb Hk Ha Hv Hlow.
  destruct (load_valid_path d buffer (Z.of_nat sizeof_struct_data_t) k)
    as (d' & Hrun & _ & Hlog); [sizes | assumption | assumption | | |].
  - unfold slot_validates. now rewrite Ha, crc_validates_record, Hv.
  - intros j Hj. unfold slot_validates. rewrite crc_validates_record.
    destruct (Hlow j Hj) as [-> | ->]; [reflexivity | apply andb_false_r].
  - exists d'. rewrite Nat2Z.id in Hrun. now split.
Qed.

(** C6, for [size = sizeof(struct_data_t)]: on an active slot the loop body
    computes the CRC-16 of the first [size - 2] bytes of the blob it read
    and compares it with the trailing two bytes of that blob; it returns
    the slot when they match and goes on when they do not. *)
Theorem crc_validation_covers_record d i sector buffer :
  0 <= i < NUMBER_OF_SECTORS ->
  slot_active (mem d) i = true ->
  length sector = sizeof_struct_data_t ->
  Z.of_nat sizeof_struct_data_t <= Z.of_nat (length buffer) ->
  result (load_body i sector buffer (Z.of_nat sizeof_struct_data_t) d)
  = Some (if trailing_crc_ok (slot_payload (mem d) i sizeof_struct_data_t)
          then Found i (slot_payload (mem d) i sizeof_struct_data_t
                        ++ drop sizeof_struct_data_t buffer)
          else NotFound (slot_payload (mem d) i sizeof_struct_data_t)).
Proof.
  intros Hi Ha Hl Hb.
  rewrite load_body_run; try assumption; [|sizes|].
  - rewrite Ha, crc_validates_record, staged_record, Nat2Z.id. reflexivity.
  - split; [assumption|]. rewrite Nat2Z.id, Nat.sub_diag.
    apply drop_ge. lia.
Qed.

(** ** Round trip *)

Lemma slot_validates_after_write d current buffer :
  active_slots (mem d) = [current] ->
  length buffer = sizeof_struct_data_t ->
  trailing_crc_ok buffer = true ->
  let m := mem (after_write d current buffer) in
  slot_validates m (next_slot current) (Z.of_nat sizeof_struct_data_t) = true
  /\ forall j, 0 <= j < next_slot current ->
               slot_validates m j (Z.of_nat sizeof_struct_data_t) = false.
Proof.
  intros Ha Hl Hcrc m.
  pose proof (next_slot_range current) as Hn.
  assert (Hact : active_slots m = [next_slot current])
    by (apply active_slots_after_write; [assumption | rewrite Hl; sizes]).
  pose proof (proj1 (active_slots_single m _ Hn) Hact) as Hst.
  unfold slot_validates. split.
  - rewrite Hst, Z.eqb_refl, crc_validates_record by assumption.
    subst m. rewrite <- Hl at 1. now rewrite slot_payload_after_write.
  - intros j Hj. rewrite Hst by lia.
    now replace (j =? next_slot current) with false by lia.
Qed.

(** C1, for [size = sizeof(struct_data_t)]: starting from a device whose
    only active slot is [current_sector], writing a record that ends in its
    CRC and loading it back returns the bytes of the record, and the load
    returns the slot index that the write returned. *)
Theorem roundtrip_at_record_size d buffer out_buffer current_sector :
  active_slots (mem d) = [current_sector] ->
  length buffer = sizeof_struct_data_t ->
  trailing_crc_ok buffer = true ->
  (sizeof_struct_data_t <= length out_buffer)%nat ->
  result (write_then_load buffer out_buffer (Z.of_nat sizeof_struct_data_t)
                          current_sector d)
  = Some ((current_sector + 1) mod NUMBER_OF_SECTORS,
          ((current_sector + 1) mod NUMBER_OF_SECTORS,
           buffer ++ drop sizeof_struct_data_t out_buffer)).
Proof.
  intros Ha Hl Hcrc Ho.
  pose proof (active_slots_in_range _ _ _ Ha) as Hc.
  pose proof (next_slot_range current_sector) as Hn.
  destruct (slot_validates_after_write d current_sector buffer Ha Hl Hcrc)
    as [Hv Hlow].
  unfold write_then_load.
  erewrite bind_run by (apply eeprom_sector_write_run; [assumption | lia]).
  rewrite Nat2Z.id.
  rewrite (take_ge buffer) by lia.
  destruct (load_valid_path (after_write d current_sector buffer) out_buffer
              (Z.of_nat sizeof_struct_data_t) (next_slot current_sector))
    as (d' & Hrun & _); try assumption; [sizes | lia |].
  rewrite (bind_run _ _ _ _ _ Hrun). cbn [result option_map ret fst].
  rewrite Nat2Z.id. rewrite <- Hl at 1.
  now rewrite slot_payload_after_write.
Qed.

(** C7: from a device whose only active slot is [current_sector], a write
    of a record that ends in its CRC leaves exactly one active slot, the
    next one, and the payload stored there ends in its CRC. *)
Theorem write_leaves_one_valid_active_slot d buffer size current_sector :
  active_slots (mem d) = [current_sector] ->
  Z.of_nat (length buffer) = size ->
  size <= slot_capacity ->
  trailing_crc_ok buffer = true ->
  exists d',
    eeprom_sector_write buffer size current_sector d
    = Some ((current_sector + 1) mod NUMBER_OF_SECTORS, d')
    /\ active_slots (mem d') = [(current_sector + 1) mod NUMBER_OF_SECTORS]
    /\ trailing_crc_ok
         (slot_payload (mem d')
                       ((current_sector + 1) mod NUMBER_OF_SECTORS)
                       (Z.to_nat size))
       = true.
Proof.
  intros Ha Hl Hcap Hcrc.
  pose proof (active_slots_in_range _ _ _ Ha) as Hc.
  exists (after_write d current_sector buffer). split; [|split].
  - rewrite eeprom_sector_write_run by (first [assumption | lia]).
    now rewrite take_ge by lia.
  - apply active_slots_after_write; [assumption | lia].
  - replace (Z.to_nat size) with (length buffer) by lia.
    fold (next_slot current_sector).
    now rewrite slot_payload_after_write.
Qed.

(** C5, as the code has it: a load that finds a validating slot overwrites
    the first [size] bytes of the caller's buffer with the payload of the
    slot it returns and leaves the bytes after them; a load that finds none
    returns slot 0 and does not write the caller's buffer at all. *)
Theorem load_buffer_effect d buffer size :
  2 <= size <= Z.of_nat sizeof_struct_data_t ->
  size <= Z.of_nat (length buffer) ->
  exists k out d',
    eeprom_sector_load buffer size d = Some ((k, out), d')
    /\ ((exists j, 0 <= j < NUMBER_OF_SECTORS
                   /\ slot_validates (mem d) j size = true) ->
        take (Z.to_nat size) out = slot_payload (mem d') k (Z.to_nat size)
        /\ drop (Z.to_nat size) out = drop (Z.to_nat size) buffer)
    /\ ((forall j, 0 <= j < NUMBER_OF_SECTORS ->
                   slot_validates (mem d) j size = false) ->
        k = 0 /\ out = buffer).
Proof.
  intros Hs Hb.
  destruct (first_valid_slot (mem d) size) as [Hnone | (k & Hk & Hvk & Hlow)].
  - destruct (load_bootstrap d buffer size Hs Hb Hnone) as (s & Hrun & _).
    eexists _, _, _. split; [exact Hrun|]. split.
    + intros (j & Hj & Hv). rewrite Hnone in Hv by assumption. discriminate.
    + intros _. now split.
  - destruct (load_valid_path d buffer size k Hs Hb Hk Hvk Hlow)
      as (d' & Hrun & Hmem & _).
    eexists _, _, _. split; [exact Hrun|]. split.
    + intros _. rewrite Hmem. split.
      * now rewrite take_app_length' by (symmetry; apply read_bytes_length).
      * now rewrite drop_app_length' by (symmetry; apply read_bytes_length).
    + intros Hnone. rewrite Hnone in Hvk by assumption. discriminate.
Qed.

(** ** Rotation *)

Lemma bind_inv {A B} (m : M A) (k : A -> M B) d b d2 :
  bind m k d = Some (b, d2) ->
  exists a d1, m d = Some (a, d1) /\ k a d1 = Some (b, d2).
Proof.
  unfold bind. destruct (m d) as [[a d1]|]; [|discriminate].
  intros H. now exists a, d1.
Qed.

Lemma load_body_found i sector buffer size d k b d' :
  load_body i sector buffer size d = Some (Found k b, d') -> k = i.
Proof.
  unfold load_body. intros H.
  apply bind_inv in H as (a & d1 & _ & H).
  apply bind_inv in H as (status & d2 & _ & H).
  destruct (Byte.eqb _ _); [|discriminate H].
  apply bind_inv in H as (a' & d3 & _ & H).
  apply bind_inv in H as (sector' & d4 & _ & H).
  apply bind_inv in H as (ok & d5 & _ & H).
  destruct ok; [|discriminate H].
  apply bind_inv in H as (b' & d6 & _ & H).
  now injection H as <- _ _.
Qed.

Lemma load_scan_found remaining buffer size :
  forall i sector d k b d',
    0 <= i -> i + Z.of_nat remaining <= 255 ->
    load_scan remaining i sector buffer size d = Some (Found k b, d') ->
    i <= k < i + Z.of_nat remaining.
Proof.
  induction remaining as [|n IH]; intros i sector d k b d' Hi Hrem H.
  - discriminate H.
  - cbn [load_scan] in H.
    apply bind_inv in H as (r & d1 & Hbody & H).
    destruct r as [k' b' | s].
    + apply load_body_found in Hbody. injection H as <- _ _. lia.
    + assert (wrap8 (i + 1) = i + 1) as Hw
        by (unfold wrap8; apply Z.mod_small; lia).
      rewrite Hw in H. apply IH in H; lia.
Qed.

Lemma load_returns_sector buffer size d s out d' :
  eeprom_sector_load buffer size d = Some ((s, out), d') ->
  0 <= s < NUMBER_OF_SECTORS.
Proof.
  unfold eeprom_sector_load. intros H.
  apply bind_inv in H as (r & d1 & Hscan & H).
  destruct r as [k b | sector].
  - apply load_scan_found in Hscan; [|lia|sizes].
    injection H as <- _ _. sizes.
  - apply bind_inv in H as (? & ? & _ & H).
    apply bind_inv in H as (? & ? & _ & H).
    apply bind_inv in H as (? & ? & _ & H).
    apply bind_inv in H as (? & ? & _ & H).
    apply bind_inv in H as (? & ? & _ & H).
    injection H as <- _ _. sizes.
Qed.

Lemma rotation_cons s k :
  rotation s (S k) = next_slot s :: rotation (next_slot s) k.
Proof.
  unfold rotation. cbn [seq map]. f_equal.
  - unfold next_slot. f_equal. lia.
  - rewrite <- seq_shift, map_map. apply map_ext. intros i.
    unfold next_slot.
    replace (s + Z.of_nat (S i) + 1) with (s + 1 + (Z.of_nat i + 1)) by lia.
    replace ((s + 1) mod NUMBER_OF_SECTORS + Z.of_nat i + 1)
      with ((s + 1) mod NUMBER_OF_SECTORS + (Z.of_nat i + 1)) by lia.
    now rewrite Z.add_mod_idemp_l by sizes.
Qed.

Lemma rotation_snoc s k :
  rotation s (S k)
  = rotation s k ++ [(s + Z.of_nat k + 1) mod NUMBER_OF_SECTORS].
Proof. unfold rotation. now rewrite seq_S, map_app. Qed.

Lemma payload_writes_app j l1 l2 :
  payload_writes j (l1 ++ l2) = (payload_writes j l1 + payload_writes j l2)%nat.
Proof. unfold payload_writes. now rewrite List.filter_app, length_app. Qed.

Lemma payload_writes_update j current bytes :
  0 <= j < NUMBER_OF_SECTORS -> 0 <= current < NUMBER_OF_SECTORS ->
  payload_writes j (write_events current bytes)
  = occurrences j [next_slot current].
Proof.
  intros Hj Hc. pose proof (next_slot_range current) as Hn.
  unfold payload_writes, occurrences, write_events.
  cbn [List.filter is_payload_write].
  rewrite !status_address_value, !payload_address_value by assumption.
  replace (4096 * current =? 4096 * j + 2) with false by lia.
  replace (4096 * next_slot current =? 4096 * j + 2) with false by lia.
  destruct (j =? next_slot current) eqn:E.
  - now replace (4096 * next_slot current + 2 =? 4096 * j + 2) with true by lia.
  - now replace (4096 * next_slot current + 2 =? 4096 * j + 2) with false by lia.
Qed.

(** A run of updates goes through the slots of [rotation], and every slot
    receives as many payload writes as it occurs there. *)
Lemma write_all_run size buffers :
  Forall (fun b => 0 <= size <= Z.of_nat (length b)) buffers ->
  forall s d,
    0 <= s < NUMBER_OF_SECTORS ->
    exists d' evs,
      write_all buffers size s d = Some (rotation s (length buffers), d')
      /\ log d' = log d ++ evs
      /\ forall j, 0 <= j < NUMBER_OF_SECTORS ->
                   payload_writes j evs
                   = occurrences j (rotation s (length buffers)).
Proof.
  induction 1 as [|b bs Hb _ IH]; intros s d Hs.
  - exists d, []. split; [reflexivity|]. split; [now rewrite app_nil_r|].
    reflexivity.
  - cbn [write_all length].
    erewrite bind_run by (apply eeprom_sector_write_run; assumption).
    destruct (IH (next_slot s)
                 (after_write d s (take (Z.to_nat size) b))
                 (next_slot_range s))
      as (d' & evs & Hrun & Hlog & Hcount).
    rewrite (bind_run _ _ _ _ _ Hrun).
    exists d', (write_events s (take (Z.to_nat size) b) ++ evs).
    split; [now rewrite rotation_cons|].
    split; [rewrite Hlog; cbn [after_write log]; now rewrite app_assoc|].
    intros j Hj.
    rewrite payload_writes_app, payload_writes_update, Hcount by assumption.
    rewrite rotation_cons. unfold occurrences. cbn [List.filter].
    destruct (j =? next_slot s); reflexivity.
Qed.

(** Over [k] updates in a row, slot [j] is visited once every N updates,
    the first time after [(j - s - 1) mod N] others. *)
Lemma occurrences_rotation s j k :
  0 <= j < NUMBER_OF_SECTORS ->
  Z.of_nat (occurrences j (rotation s k))
  = (Z.of_nat k + NUMBER_OF_SECTORS - 1
     - (j - s - 1) mod NUMBER_OF_SECTORS) / NUMBER_OF_SECTORS.
Proof.
  intros Hj. unfold NUMBER_OF_SECTORS in *. induction k as [|k IH].
  - cbn [rotation occurrences seq map List.filter length].
    pose proof (Z.mod_pos_bound (j - s - 1) 4 ltac:(lia)) as Hr.
    symmetry. apply Z.div_small. lia.
  - rewrite rotation_snoc. unfold occurrences in *.
    rewrite List.filter_app, length_app, Nat2Z.inj_add, IH.
    cbn [List.filter]. unfold NUMBER_OF_SECTORS.
    destruct (j =? (s + Z.of_nat k + 1) mod 4) eqn:E; cbn [length];
      [apply Z.eqb_eq in E | apply Z.eqb_neq in E];
      Z.div_mod_to_equations; lia.
Qed.

(** C8: in a run of updates that starts from the slot a load returned and
    passes each returned index to the next update, the [i]-th update
    returns slot (s0 + i) mod N; and over the [K] updates of the run every
    slot receives either floor(K/N) or ceiling(K/N) payload writes. *)
Theorem rotation_is_round_robin d0 out size0 s0 out' d buffers size :
  eeprom_sector_load out size0 d0 = Some ((s0, out'), d) ->
  Forall (fun b => 0 <= size <= Z.of_nat (length b)) buffers ->
  exists slots d' evs,
    write_all buffers size s0 d = Some (slots, d')
    /\ length slots = length buffers
    /\ (forall i, (1 <= i <= length buffers)%nat ->
                  nth (i - 1) slots 0
                  = (s0 + Z.of_nat i) mod NUMBER_OF_SECTORS)
    /\ log d' = log d ++ evs
    /\ forall j, 0 <= j < NUMBER_OF_SECTORS ->
                 Z.of_nat (payload_writes j evs)
                 = Z.of_nat (length buffers) / NUMBER_OF_SECTORS
                 \/ Z.of_nat (payload_writes j evs)
                    = (Z.of_nat (length buffers) + NUMBER_OF_SECTORS - 1)
                      / NUMBER_OF_SECTORS.
Proof.
  intros Hload Hbufs.
  pose proof (load_returns_sector _ _ _ _ _ _ Hload) as Hs0.
  destruct (write_all_run size buffers Hbufs s0 d Hs0)
    as (d' & evs & Hrun & Hlog & Hcount).
  exists (rotation s0 (length buffers)), d', evs.
  split; [assumption|].
  split; [unfold rotation; now rewrite length_map, length_seq|].
  split; [|split; [assumption|]].
  - intros i Hi. unfold rotation.
    rewrite (nth_indep _ 0 ((s0 + Z.of_nat 0 + 1) mod NUMBER_OF_SECTORS))
      by (rewrite length_map, length_seq; lia).
    rewrite (map_nth (fun i => (s0 + Z.of_nat i + 1) mod NUMBER_OF_SECTORS)).
    rewrite seq_nth by lia. f_equal. lia.
  - intros j Hj. rewrite Hcount, occurrences_rotation by assumption.
    pose proof (Z.mod_pos_bound (j - s0 - 1) NUMBER_OF_SECTORS ltac:(sizes))
      as Hr.
    unfold NUMBER_OF_SECTORS in *. Z.div_mod_to_equations. lia.
Qed.

(** On a device with no active slot at all, the load reads the four status
    bytes and its recovery path stores the zeros of the staging record's
    initialiser. *)
Lemma load_without_active_slot d buffer size :
  2 <= size <= Z.of_nat sizeof_struct_data_t ->
  size <= Z.of_nat (length buffer) ->
  active_slots (mem d) = [] ->
  eeprom_sector_load buffer size d
  = Some ((0, buffer),
          after_bootstrap
            (add_log d (map (fun i => EvRead (status_address_of i) 1) sectors))
            (replicate (Z.to_nat size) x00)).
Proof.
  intros Hs Hb Ha.
  assert (Hina : forall j, 0 <= j < NUMBER_OF_SECTORS ->
                           slot_active (mem d) j = false).
  { unfold active_slots in Ha. change sectors with [0; 1; 2; 3] in Ha.
    cbn [List.filter] in Ha. intros j Hj.
    destruct (slot_active (mem d) 0) eqn:E0; [discriminate Ha|].
    destruct (slot_active (mem d) 1) eqn:E1; [discriminate Ha|].
    destruct (slot_active (mem d) 2) eqn:E2; [discriminate Ha|].
    destruct (slot_active (mem d) 3) eqn:E3; [discriminate Ha|].
    each_sector j Hj; assumption. }
  destruct (load_bootstrap d buffer size Hs Hb) as (s & Hrun & _ & Hzero).
  { intros j Hj. unfold slot_validates. now rewrite Hina. }
  rewrite Hrun, (Hzero Hina), take_replicate.
  replace (Z.to_nat size `min` sizeof_struct_data_t)%nat
    with (Z.to_nat size) by lia.
  change (slots_between 0 NUMBER_OF_SECTORS) with [0; 1; 2; 3].
  change sectors with [0; 1; 2; 3].
  unfold scan_events, probe_events. cbn [map concat app].
  now rewrite !Hina by sizes.
Qed.

End Integrity.

(** * The code on concrete devices

    The deployment of the examples: CRC-16/CCITT-FALSE on a little-endian
    platform. *)

Ltac evaluate := vm_compute; reflexivity.

(** A bound between closed numbers. *)
Ltac in_bounds := vm_compute; first [solve [intuition discriminate] | lia].

Example crc16_ccitt_check :
  crc16_ccitt [x31; x32; x33; x34; x35; x36; x37; x38; x39] = 0x29B1.
Proof. evaluate. Qed.

Lemma write_issues_three_writes_in_order_witness :
  exists d',
    eeprom_sector_write example_record 66 3 virgin
    = Some ((3 + 1) mod NUMBER_OF_SECTORS, d')
    /\ log d'
       = log virgin
         ++ [EvWrite (status_address_of 3) [SECTOR_INACTIVE];
             EvWrite (status_address_of ((3 + 1) mod NUMBER_OF_SECTORS))
                     [SECTOR_ACTIVE];
             EvWrite (payload_address_of ((3 + 1) mod NUMBER_OF_SECTORS))
                     (take (Z.to_nat 66) example_record)].
Proof.
  apply (write_issues_three_writes_in_order virgin example_record 66 3).
  - in_bounds.
  - in_bounds.
Defined.

Lemma clear_sector_and_clear_all_witness :
  (exists d1,
      setting_sector_clear 2 virgin = Some (tt, d1)
      /\ log d1
         = log virgin
           ++ [EvWrite (status_address_of 2) [SECTOR_INACTIVE];
               EvWrite (payload_address_of 2)
                       (replicate sizeof_struct_data_t x00)])
  /\ (exists d2,
         eeprom_all_sectors_clear virgin = Some (tt, d2)
         /\ log d2 = log virgin ++ concat (map clear_events sectors)
         /\ forall i,
              0 <= i < NUMBER_OF_SECTORS ->
              slot_status (mem d2) i = SECTOR_INACTIVE
              /\ slot_payload (mem d2) i sizeof_struct_data_t
                 = replicate sizeof_struct_data_t x00).
Proof.
  apply (clear_sector_and_clear_all virgin 2).
  in_bounds.
Defined.

Lemma load_returns_first_valid_slot_witness :
  exists d',
    eeprom_sector_load crc16_ccitt LittleEndian (scratch 70)
                       (Z.of_nat sizeof_struct_data_t) device_mixed
    = Some ((2, slot_payload (mem device_mixed) 2 sizeof_struct_data_t
                ++ drop sizeof_struct_data_t (scratch 70)), d')
    /\ log d'
       = log device_mixed
         ++ scan_events (mem device_mixed) (Z.of_nat sizeof_struct_data_t)
                        (slots_between 0 (2 + 1)).
Proof.
  apply (load_returns_first_valid_slot crc16_ccitt LittleEndian
           device_mixed (scratch 70) 2).
  - in_bounds.
  - in_bounds.
  - evaluate.
  - evaluate.
  - intros j Hj. assert (j = 0 \/ j = 1) as [-> | ->] by lia.
    + right. evaluate.
    + left. evaluate.
Defined.

(** C3, as stated for every [size]: with [size = 4], slot 1 is the only
    active slot and its four bytes end in their CRC, yet the load does not
    return it: it returns slot 0 from the recovery path and copies nothing.
    And a slot whose four bytes do not end in their CRC is returned, because
    the CRC of its first two bytes is compared with bytes 64 and 65 of the
    staging record, which are zero. *)
Lemma short_record_is_not_selected :
  (active_slots (mem (device_with 1 short_record)) = [1]
   /\ trailing_crc_ok crc16_ccitt LittleEndian
        (slot_payload (mem (device_with 1 short_record)) 1 4) = true
   /\ result (eeprom_sector_load crc16_ccitt LittleEndian (scratch 4) 4
                                 (device_with 1 short_record))
      = Some (0, scratch 4))
  /\ (active_slots (mem (device_with 1 wrong_record)) = [1]
      /\ trailing_crc_ok crc16_ccitt LittleEndian
           (slot_payload (mem (device_with 1 wrong_record)) 1 4) = false
      /\ result (eeprom_sector_load crc16_ccitt LittleEndian (scratch 4) 4
                                    (device_with 1 wrong_record))
         = Some (1, wrong_record)).
Proof. repeat split; evaluate. Qed.

Lemma valid_load_issues_no_write_witness :
  exists k out d',
    eeprom_sector_load crc16_ccitt LittleEndian (scratch 70) 66
                       device_two_valid
    = Some ((k, out), d')
    /\ mem d' = mem device_two_valid
    /\ writes_of (log d') = writes_of (log device_two_valid).
Proof.
  apply (valid_load_issues_no_write crc16_ccitt LittleEndian
           device_two_valid (scratch 70) 66).
  - in_bounds.
  - in_bounds.
  - exists 3. split; [in_bounds | evaluate].
Defined.

Lemma crc_validation_covers_record_witness :
  result (load_body crc16_ccitt LittleEndian 0
                    (replicate sizeof_struct_data_t x00) (scratch 66)
                    (Z.of_nat sizeof_struct_data_t)
                    (device_with 0 example_record))
  = Some (if trailing_crc_ok crc16_ccitt LittleEndian
               (slot_payload (mem (device_with 0 example_record)) 0
                             sizeof_struct_data_t)
          then Found 0 (slot_payload (mem (device_with 0 example_record)) 0
                                     sizeof_struct_data_t
                        ++ drop sizeof_struct_data_t (scratch 66))
          else NotFound (slot_payload (mem (device_with 0 example_record)) 0
                                      sizeof_struct_data_t)).
Proof.
  apply (crc_validation_covers_record crc16_ccitt LittleEndian
           (device_with 0 example_record) 0
           (replicate sizeof_struct_data_t x00) (scratch 66)).
  - in_bounds.
  - evaluate.
  - evaluate.
  - in_bounds.
Defined.

(** C6, as stated for every [size]: slot 0 is active and holds a 4-byte
    blob whose trailing two bytes are the CRC of the two before them, and
    the loop body, reading it with [size = 4], does not return it: it
    compares the CRC with bytes 64 and 65 of the staging record. *)
Lemma short_record_is_rejected :
  slot_active (mem (device_with 0 short_record)) 0 = true
  /\ trailing_crc_ok crc16_ccitt LittleEndian
       (slot_payload (mem (device_with 0 short_record)) 0 4)
     = true
  /\ result (load_body crc16_ccitt LittleEndian 0
                       (replicate sizeof_struct_data_t x00) (scratch 4) 4
                       (device_with 0 short_record))
     = Some (NotFound (short_record ++ replicate 62 x00)).
Proof. repeat split; evaluate. Qed.

Lemma roundtrip_at_record_size_witness :
  result (write_then_load crc16_ccitt LittleEndian other_record (scratch 70)
                          (Z.of_nat sizeof_struct_data_t) 3
                          (device_with 3 example_record))
  = Some ((3 + 1) mod NUMBER_OF_SECTORS,
          ((3 + 1) mod NUMBER_OF_SECTORS,
           other_record ++ drop sizeof_struct_data_t (scratch 70))).
Proof.
  apply (roundtrip_at_record_size crc16_ccitt LittleEndian
           (device_with 3 example_record) other_record (scratch 70) 3).
  - evaluate.
  - evaluate.
  - evaluate.
  - in_bounds.
Defined.

(** C1, as stated for every [size]: a 4-byte record that ends in its CRC is
    written from slot 0; the write returns slot 1, and the load that follows
    returns slot 0 and leaves the caller's buffer as it was. *)
Lemma short_record_roundtrip_fails :
  active_slots (mem (device_with 0 short_record)) = [0]
  /\ length short_record = 4%nat
  /\ trailing_crc_ok crc16_ccitt LittleEndian short_record = true
  /\ result (write_then_load crc16_ccitt LittleEndian short_record
                             (scratch 4) 4 0 (device_with 0 short_record))
     = Some (1, (0, scratch 4))
  /\ scratch 4 <> short_record.
Proof. repeat split; try evaluate. discriminate. Qed.

Lemma write_leaves_one_valid_active_slot_witness :
  exists d',
    eeprom_sector_write example_record 66 0 (device_with 0 other_record)
    = Some ((0 + 1) mod NUMBER_OF_SECTORS, d')
    /\ active_slots (mem d') = [(0 + 1) mod NUMBER_OF_SECTORS]
    /\ trailing_crc_ok crc16_ccitt LittleEndian
         (slot_payload (mem d') ((0 + 1) mod NUMBER_OF_SECTORS)
                       (Z.to_nat 66))
       = true.
Proof.
  apply (write_leaves_one_valid_active_slot crc16_ccitt LittleEndian
           (device_with 0 other_record) example_record 66 0).
  - evaluate.
  - evaluate.
  - in_bounds.
  - evaluate.
Defined.

Lemma load_buffer_effect_witness :
  exists k out d',
    eeprom_sector_load crc16_ccitt LittleEndian (scratch 70) 66
                       device_two_valid
    = Some ((k, out), d')
    /\ ((exists j, 0 <= j < NUMBER_OF_SECTORS
                   /\ slot_validates crc16_ccitt LittleEndian
                        (mem device_two_valid) j 66 = true) ->
        take (Z.to_nat 66) out = slot_payload (mem d') k (Z.to_nat 66)
        /\ drop (Z.to_nat 66) out = drop (Z.to_nat 66) (scratch 70))
    /\ ((forall j, 0 <= j < NUMBER_OF_SECTORS ->
                   slot_validates crc16_ccitt LittleEndian
                     (mem device_two_valid) j 66 = false) ->
        k = 0 /\ out = scratch 70).
Proof.
  apply (load_buffer_effect crc16_ccitt LittleEndian device_two_valid
           (scratch 70) 66).
  - in_bounds.
  - in_bounds.
Defined.

(** C5, as stated: on a fresh device the load returns slot 0 and the
    caller's buffer still holds the bytes it held, which are not zeros. *)
Lemma fresh_device_load_keeps_buffer :
  result (eeprom_sector_load crc16_ccitt LittleEndian (scratch 66) 66 virgin)
  = Some (0, scratch 66)
  /\ scratch 66 <> replicate 66 x00.
Proof. split; [evaluate | discriminate]. Qed.

(** C4 at a device whose only active slot holds a corrupted record: the
    load finds no slot that validates, clears every slot, activates slot 0
    and returns 0, and the payload it stores in slot 0 is the corrupted
    record left in the staging record, not zeros. *)
Theorem recovery_stores_stale_payload :
  active_slots (mem (device_with 2 corrupt_record)) = [2]
  /\ trailing_crc_ok crc16_ccitt LittleEndian corrupt_record = false
  /\ match eeprom_sector_load crc16_ccitt LittleEndian (scratch 66) 66
             (device_with 2 corrupt_record) with
     | Some ((k, out), d') =>
         k = 0
         /\ active_slots (mem d') = [0]
         /\ slot_payload (mem d') 0 66 = corrupt_record
         /\ slot_payload (mem d') 0 66 <> replicate 66 x00
     | None => False
     end.
Proof.
  split; [evaluate|]. split; [evaluate|]. vm_compute.
  repeat split; discriminate.
Qed.

Lemma rotation_is_round_robin_witness :
  exists slots d' evs,
    write_all [example_record; other_record; example_record; other_record;
               example_record; other_record] 66 0 bootstrapped
    = Some (slots, d')
    /\ length slots = 6%nat
    /\ (forall i, (1 <= i <= 6)%nat ->
                  nth (i - 1) slots 0
                  = (0 + Z.of_nat i) mod NUMBER_OF_SECTORS)
    /\ log d' = log bootstrapped ++ evs
    /\ forall j, 0 <= j < NUMBER_OF_SECTORS ->
                 Z.of_nat (payload_writes j evs)
                 = Z.of_nat 6 / NUMBER_OF_SECTORS
                 \/ Z.of_nat (payload_writes j evs)
                    = (Z.of_nat 6 + NUMBER_OF_SECTORS - 1)
                      / NUMBER_OF_SECTORS.
Proof.
  apply (rotation_is_round_robin crc16_ccitt LittleEndian virgin
           (scratch 66) 66 0 (scratch 66) bootstrapped
           [example_record; other_record; example_record; other_record;
            example_record; other_record] 66).
  - evaluate.
  - repeat constructor; in_bounds.
Defined.

(** * Further properties of the code *)

(** ** What an update and a clear leave alone *)

Lemma take_size_length (buffer : list byte) size :
  0 <= size <= Z.of_nat (length buffer) ->
  Z.of_nat (length (take (Z.to_nat size) buffer)) = size.
Proof. intros H. rewrite length_take. lia. Qed.

(** X1: an update changes three places of the memory only: the status byte
    of the current slot, the status byte of the next slot and the [size]
    payload bytes of the next slot.  Every other address keeps its byte. *)
Theorem write_changes_three_places_only d buffer size current_sector a :
  0 <= current_sector < NUMBER_OF_SECTORS ->
  0 <= size <= Z.of_nat (length buffer) ->
  a <> status_address_of current_sector ->
  a <> status_address_of (next_slot current_sector) ->
  a < payload_address_of (next_slot current_sector)
  \/ payload_address_of (next_slot current_sector) + size <= a ->
  exists d',
    eeprom_sector_write buffer size current_sector d
    = Some (next_slot current_sector, d')
    /\ mem d' a = mem d a.
Proof.
  intros Hc Hs Ha1 Ha2 Ha3. eexists. split.
  - now apply eeprom_sector_write_run.
  - unfold after_write. cbn [mem].
    rewrite store_bytes_outside by (rewrite take_size_length; lia).
    rewrite store_bytes_outside by (cbn [length]; lia).
    apply store_bytes_outside. cbn [length]. lia.
Qed.

(** X2: an update leaves the payload of every slot but the next one as it
    was, for records that fit a slot; in particular the record of the slot
    it deactivates is still stored there. *)
Theorem write_keeps_other_payloads d buffer size current_sector j n :
  0 <= current_sector < NUMBER_OF_SECTORS ->
  0 <= size <= Z.of_nat (length buffer) ->
  size <= slot_capacity ->
  0 <= j < NUMBER_OF_SECTORS ->
  j <> next_slot current_sector ->
  Z.of_nat n <= slot_capacity ->
  exists d',
    eeprom_sector_write buffer size current_sector d
    = Some (next_slot current_sector, d')
    /\ slot_payload (mem d') j n = slot_payload (mem d) j n.
Proof.
  intros Hc Hs Hcap Hj Hne Hn.
  pose proof (next_slot_range current_sector) as Hnext.
  eexists. split.
  - now apply eeprom_sector_write_run.
  - unfold after_write, slot_payload. cbn [mem].
    rewrite !read_bytes_store_outside; [reflexivity | | |];
      rewrite ?take_size_length by assumption; cbn [length];
      rewrite ?status_address_value, ?payload_address_value by assumption;
      unfold slot_capacity in *; lia.
Qed.

(** X3: clearing a slot leaves it inactive with a zeroed record, and leaves
    the status byte and the payload of every other slot as they were. *)
Theorem clear_changes_one_slot_only d sector j n :
  0 <= sector < NUMBER_OF_SECTORS ->
  0 <= j < NUMBER_OF_SECTORS ->
  j <> sector ->
  Z.of_nat n <= slot_capacity ->
  exists d',
    setting_sector_clear sector d = Some (tt, d')
    /\ slot_status (mem d') sector = SECTOR_INACTIVE
    /\ slot_payload (mem d') sector sizeof_struct_data_t
       = replicate sizeof_struct_data_t x00
    /\ slot_status (mem d') j = slot_status (mem d) j
    /\ slot_payload (mem d') j n = slot_payload (mem d) j n.
Proof.
  intros Hs Hj Hne Hn. eexists. split.
  - now apply setting_sector_clear_run.
  - unfold after_clear. cbn [mem]. repeat split.
    + rewrite store_payload_status, store_status_byte, Z.eqb_refl;
        [reflexivity | assumption .. | rewrite length_replicate; sizes].
    + unfold slot_payload.
      rewrite <- (length_replicate sizeof_struct_data_t x00) at 2.
      apply read_bytes_store_same.
    + rewrite store_payload_status, store_status_byte;
        [| assumption .. | rewrite length_replicate; sizes].
      now replace (j =? sector) with false by lia.
    + unfold slot_payload.
      rewrite !read_bytes_store_outside; [reflexivity | |];
        rewrite ?length_replicate; cbn [length];
        rewrite ?status_address_value, ?payload_address_value by assumption;
        unfold slot_capacity, sizeof_struct_data_t in *; lia.
Qed.

(** ** When an update is defined *)

(** X4: for a [uint8_t] index and a [uint32_t] size, an update is defined
    exactly when the index is below [NUMBER_OF_SECTORS] and the buffer holds
    [size] bytes: an index out of range reads past the address tables, and
    a short buffer is read past its end. *)
Theorem write_defined_iff d buffer size current_sector :
  0 <= current_sector ->
  0 <= size ->
  eeprom_sector_write buffer size current_sector d <> None
  <-> current_sector < NUMBER_OF_SECTORS
      /\ size <= Z.of_nat (length buffer).
Proof.
  intros Hc Hs. split.
  - intros Hdef.
    destruct (Z_lt_dec current_sector NUMBER_OF_SECTORS) as [Hlt | Hge].
    + split; [assumption|].
      destruct (Z_le_dec size (Z.of_nat (length buffer))) as [Hle | Hgt];
        [assumption|].
      exfalso. apply Hdef. unfold eeprom_sector_write.
      fold (next_slot current_sector).
      rewrite (wrap8_sector (next_slot current_sector))
        by apply next_slot_range.
      pose proof (next_slot_range current_sector) as Hn.
      assert (Hrange : 0 <= current_sector < NUMBER_OF_SECTORS) by lia.
      step lift_index_status. step eeprom_write_run.
      step lift_index_status. step eeprom_write_run.
      step lift_index_payload.
      unfold bind, eeprom_write.
      now replace (size <=? Z.of_nat (length buffer)) with false by lia.
    + exfalso. apply Hdef. unfold eeprom_sector_write, bind, lift, index.
      rewrite (lookup_ge_None_2 sector_status_address); [reflexivity|].
      cbn [sector_status_address length]. sizes.
  - intros [Hlt Hle]. rewrite eeprom_sector_write_run by lia. discriminate.
Qed.

(** X5: a record longer than the gap between a payload address and the
    next status address runs over the status byte of the slot that follows
    the one it is written to: that byte becomes byte [0xFFE] of the
    buffer. *)
Theorem oversize_record_hits_next_status d buffer size current_sector :
  0 <= current_sector < NUMBER_OF_SECTORS ->
  next_slot current_sector + 1 < NUMBER_OF_SECTORS ->
  slot_capacity < size <= Z.of_nat (length buffer) ->
  exists d',
    eeprom_sector_write buffer size current_sector d
    = Some (next_slot current_sector, d')
    /\ slot_status (mem d') (next_slot current_sector + 1)
       = nth (Z.to_nat slot_capacity) buffer x00.
Proof.
  intros Hc Hnext Hs. pose proof (next_slot_range current_sector) as Hn.
  eexists. split.
  - apply eeprom_sector_write_run; [assumption | sizes].
  - unfold after_write, slot_status. cbn [mem].
    replace (status_address_of (next_slot current_sector + 1))
      with (payload_address_of (next_slot current_sector)
            + Z.of_nat (Z.to_nat slot_capacity))
      by (rewrite status_address_value, payload_address_value by lia;
          unfold slot_capacity; lia).
    rewrite store_bytes_inside by (rewrite length_take; sizes).
    rewrite nth_firstn.
    now replace (Z.to_nat slot_capacity <? Z.to_nat size)%nat with true
      by (symmetry; apply Nat.ltb_lt; sizes).
Qed.

(** ** The device after the recovery path *)

Lemma active_slots_nil m :
  active_slots m = []
  <-> forall j, 0 <= j < NUMBER_OF_SECTORS -> slot_active m j = false.
Proof.
  unfold active_slots. change sectors with [0; 1; 2; 3].
  cbn [List.filter]. split.
  - intros H j Hj.
    destruct (slot_active m 0) eqn:E0; [discriminate H|].
    destruct (slot_active m 1) eqn:E1; [discriminate H|].
    destruct (slot_active m 2) eqn:E2; [discriminate H|].
    destruct (slot_active m 3) eqn:E3; [discriminate H|].
    each_sector j Hj; assumption.
  - intros H. now rewrite (H 0), (H 1), (H 2), (H 3) by sizes.
Qed.

Lemma nth_zeros k n : nth k (replicate n x00) x00 = x00.
Proof.
  revert k. induction n as [|n IH]; intros [|k]; cbn; auto.
Qed.

Lemma slot_status_after_bootstrap d bytes j :
  0 <= j < NUMBER_OF_SECTORS ->
  Z.of_nat (length bytes) <= slot_capacity ->
  slot_status (mem (after_bootstrap d bytes)) j
  = if j =? 0 then SECTOR_ACTIVE else SECTOR_INACTIVE.
Proof.
  intros Hj Hl. unfold after_bootstrap. cbn [mem].
  rewrite store_payload_status, store_status_byte by (assumption || sizes).
  destruct (j =? 0); [reflexivity|]. now apply all_cleared_slot.
Qed.

Lemma active_slots_after_bootstrap d bytes :
  Z.of_nat (length bytes) <= slot_capacity ->
  active_slots (mem (after_bootstrap d bytes)) = [0].
Proof.
  intros Hl. apply active_slots_single; [sizes|]. intros j Hj.
  unfold slot_active. rewrite slot_status_after_bootstrap by assumption.
  now destruct (j =? 0).
Qed.

Lemma other_payloads_after_bootstrap d bytes j :
  1 <= j < NUMBER_OF_SECTORS ->
  Z.of_nat (length bytes) <= slot_capacity ->
  slot_payload (mem (after_bootstrap d bytes)) j sizeof_struct_data_t
  = replicate sizeof_struct_data_t x00.
Proof.
  intros Hj Hl. unfold after_bootstrap, slot_payload. cbn [mem].
  rewrite !read_bytes_store_outside.
  - apply all_cleared_slot. lia.
  - right. rewrite status_address_value, payload_address_value by sizes.
    cbn [length]. lia.
  - right. rewrite !payload_address_value by sizes. sizes.
Qed.

Lemma first_payload_after_bootstrap d bytes :
  (length bytes <= sizeof_struct_data_t)%nat ->
  slot_payload (mem (after_bootstrap d bytes)) 0 sizeof_struct_data_t
  = bytes ++ replicate (sizeof_struct_data_t - length bytes) x00.
Proof.
  intros Hl. apply (nth_ext _ _ x00 x00).
  - unfold slot_payload.
    rewrite read_bytes_length, length_app, length_replicate. lia.
  - intros k Hk. unfold slot_payload in *. rewrite read_bytes_length in Hk.
    rewrite read_bytes_nth by assumption.
    unfold after_bootstrap. cbn [mem].
    destruct (Nat.lt_ge_cases k (length bytes)) as [Hin | Hout].
    + rewrite store_bytes_inside by assumption. now rewrite app_nth1.
    + rewrite store_bytes_outside by lia.
      rewrite store_bytes_outside
        by (rewrite status_address_value, payload_address_value by sizes;
            cbn [length]; lia).
      rewrite app_nth2, nth_zeros by assumption.
      rewrite <- (read_bytes_nth _ _ sizeof_struct_data_t k x00)
        by assumption.
      fold (slot_payload (mem (fold_left after_clear sectors d)) 0
                         sizeof_struct_data_t).
      destruct (all_cleared_slot d 0) as [_ ->]; [sizes|].
      apply nth_zeros.
Qed.

(** ** Wear of the status bytes *)

Lemma occurrences_cons j x l :
  occurrences j (x :: l) = (occurrences j [x] + occurrences j l)%nat.
Proof.
  unfold occurrences. cbn [List.filter]. now destruct (j =? x).
Qed.

Lemma status_writes_app j l1 l2 :
  status_writes j (l1 ++ l2) = (status_writes j l1 + status_writes j l2)%nat.
Proof. unfold status_writes. now rewrite List.filter_app, length_app. Qed.

Lemma status_writes_update j current bytes :
  0 <= j < NUMBER_OF_SECTORS -> 0 <= current < NUMBER_OF_SECTORS ->
  status_writes j (write_events current bytes)
  = (occurrences j [current] + occurrences j [next_slot current])%nat.
Proof.
  intros Hj Hc. pose proof (next_slot_range current) as Hn.
  unfold status_writes, occurrences, write_events.
  cbn [List.filter is_status_write].
  rewrite !status_address_value, !payload_address_value by assumption.
  replace (4096 * next_slot current + 2 =? 4096 * j) with false by lia.
  replace (4096 * current =? 4096 * j) with (j =? current) by lia.
  replace (4096 * next_slot current =? 4096 * j)
    with (j =? next_slot current) by lia.
  destruct (j =? current), (j =? next_slot current); reflexivity.
Qed.

Lemma rotation_from_current s k :
  0 <= s < NUMBER_OF_SECTORS ->
  rotation (s - 1) (S k) = s :: rotation s k.
Proof.
  intros Hs. rewrite rotation_cons. unfold next_slot.
  replace (s - 1 + 1) with s by lia.
  now rewrite Z.mod_small by assumption.
Qed.

Lemma rotation_before_next s k :
  rotation (next_slot s - 1) k = rotation s k.
Proof.
  unfold rotation. apply map_ext. intros i. unfold next_slot.
  replace ((s + 1) mod NUMBER_OF_SECTORS - 1 + Z.of_nat i + 1)
    with ((s + 1) mod NUMBER_OF_SECTORS + Z.of_nat i) by lia.
  rewrite Z.add_mod_idemp_l by sizes. f_equal. lia.
Qed.

(** A run of updates writes the status byte of a slot once for every
    update that leaves it and once for every update that enters it. *)
Lemma write_all_status_writes size buffers :
  Forall (fun b => 0 <= size <= Z.of_nat (length b)) buffers ->
  forall s d,
    0 <= s < NUMBER_OF_SECTORS ->
    exists d' evs,
      write_all buffers size s d = Some (rotation s (length buffers), d')
      /\ log d' = log d ++ evs
      /\ forall j, 0 <= j < NUMBER_OF_SECTORS ->
                   payload_writes j evs
                   = occurrences j (rotation s (length buffers))
                   /\ status_writes j evs
                      = (occurrences j (rotation (s - 1) (length buffers))
                         + occurrences j (rotation s (length buffers)))%nat.
Proof.
  induction 1 as [|b bs Hb _ IH]; intros s d Hs.
  - exists d, []. split; [reflexivity|]. split; [now rewrite app_nil_r|].
    intros j Hj. now split.
  - cbn [write_all length].
    erewrite bind_run by (apply eeprom_sector_write_run; assumption).
    destruct (IH (next_slot s)
                 (after_write d s (take (Z.to_nat size) b))
                 (next_slot_range s))
      as (d' & evs & Hrun & Hlog & Hcount).
    rewrite (bind_run _ _ _ _ _ Hrun).
    exists d', (write_events s (take (Z.to_nat size) b) ++ evs).
    split; [now rewrite rotation_cons|].
    split; [rewrite Hlog; cbn [after_write log]; now rewrite app_assoc|].
    intros j Hj. destruct (Hcount j Hj) as [Hpay Hstat].
    rewrite payload_writes_app, payload_writes_update by assumption.
    rewrite status_writes_app, status_writes_update by assumption.
    rewrite Hpay, Hstat, rotation_before_next.
    rewrite rotation_from_current by assumption.
    rewrite (rotation_cons s).
    rewrite (occurrences_cons j s (rotation s (length bs))).
    rewrite (occurrences_cons j (next_slot s)
                              (rotation (next_slot s) (length bs))).
    split; lia.
Qed.

(** X18: over a run of [K] updates the status byte of every slot is written
    at least as often as its payload, between twice floor(K/N) and twice
    ceiling(K/N) times: the status bytes wear about twice as fast as the
    records. *)
Theorem status_bytes_wear_twice d buffers size s :
  0 <= s < NUMBER_OF_SECTORS ->
  Forall (fun b => 0 <= size <= Z.of_nat (length b)) buffers ->
  exists slots d' evs,
    write_all buffers size s d = Some (slots, d')
    /\ log d' = log d ++ evs
    /\ forall j, 0 <= j < NUMBER_OF_SECTORS ->
                 (payload_writes j evs <= status_writes j evs)%nat
                 /\ 2 * (Z.of_nat (length buffers) / NUMBER_OF_SECTORS)
                    <= Z.of_nat (status_writes j evs)
                    <= 2 * ((Z.of_nat (length buffers)
                             + NUMBER_OF_SECTORS - 1) / NUMBER_OF_SECTORS).
Proof.
  intros Hs Hbufs.
  destruct (write_all_status_writes size buffers Hbufs s d Hs)
    as (d' & evs & Hrun & Hlog & Hcount).
  exists (rotation s (length buffers)), d', evs.
  split; [assumption|]. split; [assumption|].
  intros j Hj. destruct (Hcount j Hj) as [Hpay Hstat].
  split; [lia|]. rewrite Hstat, Nat2Z.inj_add.
  rewrite !occurrences_rotation by assumption.
  pose proof (Z.mod_pos_bound (j - (s - 1) - 1) NUMBER_OF_SECTORS
                ltac:(sizes)) as Hr1.
  pose proof (Z.mod_pos_bound (j - s - 1) NUMBER_OF_SECTORS
                ltac:(sizes)) as Hr2.
  unfold NUMBER_OF_SECTORS in *. Z.div_mod_to_equations. lia.
Qed.

Section Protocol.

Variable calculate_crc16 : list byte -> Z.
Variable endian : endianness.

Abbreviation crc_matches := (crc_matches calculate_crc16 endian).
Abbreviation crc_validates := (crc_validates calculate_crc16 endian).
Abbreviation slot_validates := (slot_validates calculate_crc16 endian).
Abbreviation trailing_crc_ok := (trailing_crc_ok calculate_crc16 endian).
Abbreviation load_body := (load_body calculate_crc16 endian).
Abbreviation load_scan := (load_scan calculate_crc16 endian).
Abbreviation eeprom_sector_load := (eeprom_sector_load calculate_crc16 endian).

(** ** Sizes the staging record cannot take *)

Lemma load_body_inactive d i sector buffer size :
  0 <= i < NUMBER_OF_SECTORS ->
  slot_active (mem d) i = false ->
  load_body i sector buffer size d
  = Some (NotFound sector, add_log d [EvRead (status_address_of i) 1]).
Proof.
  intros Hi Ha. unfold load_body.
  step lift_index_status. step eeprom_read_run.
  change (Z.to_nat 1) with 1%nat. unfold read_bytes.
  cbn [seq map app nth]. rewrite Z.add_0_r.
  fold (slot_status (mem d) i).
  change (Byte.eqb (slot_status (mem d) i) SECTOR_ACTIVE)
    with (slot_active (mem d) i).
  now rewrite Ha.
Qed.

Lemma load_body_oversize d i sector buffer size :
  Z.of_nat (length sector) < size ->
  load_body i sector buffer size d = None
  \/ exists d', load_body i sector buffer size d = Some (NotFound sector, d').
Proof.
  intros Hs. unfold load_body, bind, lift, index.
  destruct (sector_status_address !! Z.to_nat i) as [a|]; [|now left].
  destruct (eeprom_read a [x00] 1 d) as [[status d1]|]; [|now left].
  destruct (Byte.eqb (nth 0 status x00) SECTOR_ACTIVE).
  - left. destruct (sector_address !! Z.to_nat i) as [a'|]; [|reflexivity].
    unfold eeprom_read.
    now replace (size <=? Z.of_nat (length sector)) with false by lia.
  - right. now exists d1.
Qed.

Lemma load_scan_oversize buffer size remaining :
  forall i sector d,
    Z.of_nat (length sector) < size ->
    load_scan remaining i sector buffer size d = None
    \/ exists d',
        load_scan remaining i sector buffer size d
        = Some (NotFound sector, d').
Proof.
  induction remaining as [|n IH]; intros i sector d Hs.
  - right. now exists d.
  - cbn [load_scan].
    destruct (load_body_oversize d i sector buffer size Hs)
      as [Hnone | (d1 & Hsome)].
    + left. unfold bind. now rewrite Hnone.
    + rewrite (bind_run _ _ _ _ _ Hsome). now apply IH.
Qed.

(** X6: a load with [size] above [sizeof(struct_data_t)] is undefined on
    every device: it overruns the staging record, when it reads the first
    active slot into it or, with no active slot, when the recovery path
    writes [size] bytes out of it. *)
Theorem load_oversize_undefined d buffer size :
  Z.of_nat sizeof_struct_data_t < size ->
  eeprom_sector_load buffer size d = None.
Proof.
  intros Hs. unfold eeprom_sector_load.
  destruct (load_scan_oversize buffer size (Z.to_nat NUMBER_OF_SECTORS) 0
              (replicate sizeof_struct_data_t x00) d)
    as [Hnone | (d1 & Hsome)].
  - now rewrite length_replicate.
  - unfold bind. now rewrite Hnone.
  - rewrite (bind_run _ _ _ _ _ Hsome).
    step eeprom_all_sectors_clear_run. step lift_index_status.
    step eeprom_write_run. step lift_index_payload.
    unfold bind, eeprom_write. rewrite length_replicate.
    now replace (size <=? Z.of_nat sizeof_struct_data_t) with false by lia.
Qed.

Lemma load_body_undersize d i sector buffer size :
  0 <= i < NUMBER_OF_SECTORS ->
  0 <= size < 2 ->
  length sector = sizeof_struct_data_t ->
  slot_active (mem d) i = true ->
  load_body i sector buffer size d = None.
Proof.
  intros Hi Hs Hl Ha. unfold load_body.
  step lift_index_status. step eeprom_read_run.
  change (Z.to_nat 1) with 1%nat. unfold read_bytes.
  cbn [seq map app nth]. rewrite Z.add_0_r.
  fold (slot_status (mem d) i).
  change (Byte.eqb (slot_status (mem d) i) SECTOR_ACTIVE)
    with (slot_active (mem d) i).
  rewrite Ha. step lift_index_payload.
  erewrite bind_run by (apply eeprom_read_run; rewrite Hl; sizes).
  unfold bind, lift, crc_matches.
  rewrite length_app, read_bytes_length, length_drop, Hl.
  assert (Hw : wrap32 (size - 2) = size - 2 + 4294967296).
  { unfold wrap32. change (2 ^ 32) with 4294967296.
    Z.div_mod_to_equations. lia. }
  rewrite Hw.
  now replace (size - 2 + 4294967296
               <=? Z.of_nat (Z.to_nat size
                             + (sizeof_struct_data_t - Z.to_nat size)))
    with false by (symmetry; apply Z.leb_gt; clear Hw; sizes).
Qed.

Lemma load_scan_undersize buffer size remaining :
  0 <= size < 2 ->
  forall i sector d,
    0 <= i -> i + Z.of_nat remaining = NUMBER_OF_SECTORS ->
    length sector = sizeof_struct_data_t ->
    (exists j, i <= j < NUMBER_OF_SECTORS /\ slot_active (mem d) j = true) ->
    load_scan remaining i sector buffer size d = None.
Proof.
  intros Hs. induction remaining as [|n IH];
    intros i sector d Hi Hrem Hl (j & Hj & Ha).
  - lia.
  - cbn [load_scan]. destruct (slot_active (mem d) i) eqn:Ei.
    + unfold bind. now rewrite load_body_undersize by (assumption || lia).
    + erewrite bind_run by (apply load_body_inactive; [lia | assumption]).
      rewrite wrap8_succ_sector by lia.
      apply IH; [lia | lia | assumption |].
      exists j. split; [|assumption].
      destruct (Z.eq_dec j i) as [-> | Hne]; [congruence | lia].
Qed.

(** X7: a load with [size] below 2 is undefined as soon as one slot is
    active: [size - 2] wraps around in [uint32_t], and the CRC is asked
    over some four gigabytes of a 66-byte record. *)
Theorem load_undersize_undefined d buffer size :
  0 <= size < 2 ->
  active_slots (mem d) <> [] ->
  eeprom_sector_load buffer size d = None.
Proof.
  intros Hs Ha. unfold eeprom_sector_load, bind.
  rewrite load_scan_undersize;
    [reflexivity | assumption | lia | reflexivity
     | apply length_replicate |].
  destruct (slot_active (mem d) 0) eqn:E0;
    [exists 0; split; [sizes | assumption]|];
    destruct (slot_active (mem d) 1) eqn:E1;
    [exists 1; split; [sizes | assumption]|];
    destruct (slot_active (mem d) 2) eqn:E2;
    [exists 2; split; [sizes | assumption]|];
    destruct (slot_active (mem d) 3) eqn:E3;
    [exists 3; split; [sizes | assumption]|];
    exfalso; apply Ha; apply active_slots_nil; intros j Hj;
    each_sector j Hj; assumption.
Qed.

(** ** Loading twice, and what a load leaves *)

(** X8: a load that finds a validating slot can be repeated: a second load
    returns the same slot and the same [size] bytes. *)
Theorem load_is_repeatable d buffer buffer2 size :
  2 <= size <= Z.of_nat sizeof_struct_data_t ->
  size <= Z.of_nat (length buffer) ->
  size <= Z.of_nat (length buffer2) ->
  (exists j, 0 <= j < NUMBER_OF_SECTORS
             /\ slot_validates (mem d) j size = true) ->
  exists k out d1 d2,
    eeprom_sector_load buffer size d = Some ((k, out), d1)
    /\ eeprom_sector_load buffer2 size d1
       = Some ((k, take (Z.to_nat size) out
                   ++ drop (Z.to_nat size) buffer2), d2).
Proof.
  intros Hs Hb Hb2 (j & Hj & Hv).
  destruct (first_valid_slot calculate_crc16 endian (mem d) size)
    as [Hnone | (k & Hk & Hvk & Hlow)].
  - rewrite Hnone in Hv by assumption. discriminate.
  - destruct (load_valid_path calculate_crc16 endian d buffer size k
                Hs Hb Hk Hvk Hlow) as (d1 & Hrun1 & Hmem & _).
    rewrite <- Hmem in Hvk, Hlow.
    destruct (load_valid_path calculate_crc16 endian d1 buffer2 size k
                Hs Hb2 Hk Hvk Hlow) as (d2 & Hrun2 & _).
    eexists k, _, d1, d2. split; [exact Hrun1|].
    rewrite Hrun2, Hmem.
    now rewrite take_app_length' by (symmetry; apply read_bytes_length).
Qed.

Lemma active_slots_of_single m k :
  (length (active_slots m) <= 1)%nat ->
  0 <= k < NUMBER_OF_SECTORS ->
  slot_active m k = true ->
  active_slots m = [k].
Proof.
  intros Hlen Hk Ha.
  assert (Hin : In k (active_slots m)).
  { apply filter_In. split; [|assumption].
    unfold sectors. apply in_map_iff. exists (Z.to_nat k).
    split; [lia|]. apply in_seq. sizes. }
  destruct (active_slots m) as [|x [|y l]]; cbn in Hlen, Hin.
  - contradiction.
  - destruct Hin as [-> | []]. reflexivity.
  - lia.
Qed.

Lemma take_staging_length (s : list byte) size :
  0 <= size <= Z.of_nat sizeof_struct_data_t ->
  length s = sizeof_struct_data_t ->
  length (take (Z.to_nat size) s) = Z.to_nat size.
Proof. intros Hs Hl. rewrite length_take, Hl. lia. Qed.

(** X9: on a device with at most one active slot, a load leaves exactly
    one active slot, and it is the slot whose index the load returns: the
    slot that validated, or slot 0 after a recovery. *)
Theorem load_returns_the_active_slot d buffer size :
  2 <= size <= Z.of_nat sizeof_struct_data_t ->
  size <= Z.of_nat (length buffer) ->
  (length (active_slots (mem d)) <= 1)%nat ->
  exists k out d',
    eeprom_sector_load buffer size d = Some ((k, out), d')
    /\ active_slots (mem d') = [k].
Proof.
  intros Hs Hb Hone.
  destruct (first_valid_slot calculate_crc16 endian (mem d) size)
    as [Hnone | (k & Hk & Hvk & Hlow)].
  - destruct (load_bootstrap calculate_crc16 endian d buffer size
                Hs Hb Hnone) as (s & Hrun & [Hl _] & _).
    eexists _, _, _. split; [exact Hrun|].
    apply active_slots_after_bootstrap.
    rewrite take_staging_length by (assumption || lia). sizes.
  - destruct (load_valid_path calculate_crc16 endian d buffer size k
                Hs Hb Hk Hvk Hlow) as (d' & Hrun & Hmem & _).
    eexists _, _, _. split; [exact Hrun|]. rewrite Hmem.
    apply active_slots_of_single; [assumption .. |].
    unfold slot_validates in Hvk. now apply andb_true_iff in Hvk as [? _].
Qed.

(** ** What the recovery path stores in slot 0 *)

Lemma load_scan_staging buffer size remaining :
  2 <= size <= Z.of_nat sizeof_struct_data_t ->
  size <= Z.of_nat (length buffer) ->
  forall i sector d s d',
    0 <= i -> i + Z.of_nat remaining = NUMBER_OF_SECTORS ->
    staging_ok size sector ->
    load_scan remaining i sector buffer size d = Some (NotFound s, d') ->
    s = staging_after_scan (mem d) size (slots_between i NUMBER_OF_SECTORS)
                           sector.
Proof.
  intros Hs Hb. induction remaining as [|n IH];
    intros i sector d s d' Hi Hrem Hok H.
  - replace i with NUMBER_OF_SECTORS by lia. rewrite slots_between_nil.
    now injection H as <- _.
  - cbn [load_scan] in H.
    rewrite (bind_run _ _ _ _ _
               (load_body_run calculate_crc16 endian d i sector buffer size
                  ltac:(lia) Hs Hb Hok)) in H.
    rewrite slots_between_cons by lia.
    unfold staging_after_scan. cbn [fold_left].
    destruct (slot_active (mem d) i);
      [destruct (crc_validates (mem d) i size)|].
    + discriminate H.
    + rewrite wrap8_succ_sector in H by lia.
      apply IH in H; [exact H | lia | lia | apply staging_ok_staged; lia].
    + rewrite wrap8_succ_sector in H by lia.
      apply IH in H; [exact H | lia | lia | assumption].
Qed.

Lemma load_recovery_run d buffer size :
  2 <= size <= Z.of_nat sizeof_struct_data_t ->
  size <= Z.of_nat (length buffer) ->
  (forall j, 0 <= j < NUMBER_OF_SECTORS ->
             slot_validates (mem d) j size = false) ->
  eeprom_sector_load buffer size d
  = Some ((0, buffer),
          after_bootstrap
            (add_log d (scan_events (mem d) size
                                    (slots_between 0 NUMBER_OF_SECTORS)))
            (take (Z.to_nat size)
                  (staging_after_scan (mem d) size
                     (slots_between 0 NUMBER_OF_SECTORS)
                     (replicate sizeof_struct_data_t x00)))).
Proof.
  intros Hs Hb Hnone.
  destruct (load_scan_run calculate_crc16 endian buffer size
              (Z.to_nat NUMBER_OF_SECTORS) Hs Hb 0
              (replicate sizeof_struct_data_t x00) d)
    as (r & d' & Hrun & Hmem & Hpost);
    [lia | reflexivity | apply staging_ok_initial |].
  destruct r as [k b | s].
  - destruct Hpost as (Hk & _ & Hv & _). rewrite Hnone in Hv by lia.
    discriminate.
  - destruct Hpost as (Hlog & _ & Hok & _).
    pose proof (load_scan_staging buffer size
                  (Z.to_nat NUMBER_OF_SECTORS) Hs Hb 0 _ d s d'
                  ltac:(lia) ltac:(reflexivity)
                  (staging_ok_initial size) Hrun) as Hst.
    subst s. unfold eeprom_sector_load. rewrite (bind_run _ _ _ _ _ Hrun).
    step eeprom_all_sectors_clear_run. step lift_index_status.
    step eeprom_write_run. step lift_index_payload.
    erewrite bind_run by
      (apply eeprom_write_run; destruct Hok as [Hl _]; rewrite Hl; lia).
    unfold ret, after_bootstrap. cbn -[store_bytes take fold_left].
    rewrite <- !app_assoc. cbn [app].
    assert (Hd : d' = add_log d (scan_events (mem d) size
                                   (slots_between 0 NUMBER_OF_SECTORS))).
    { destruct d' as [m' l']. cbn [mem log] in *. subst. reflexivity. }
    now rewrite Hd.
Qed.

Lemma staging_after_scan_length m size l sector :
  0 <= size <= Z.of_nat sizeof_struct_data_t ->
  length sector = sizeof_struct_data_t ->
  length (staging_after_scan m size l sector) = sizeof_struct_data_t.
Proof.
  intros Hs. revert sector. unfold staging_after_scan.
  induction l as [|j l IH]; intros sector Hl; cbn [fold_left].
  - assumption.
  - apply IH. destruct (slot_active m j); [|assumption].
    now apply staged_length.
Qed.

(** X10: when no slot validates, the load returns slot 0 and leaves the
    caller's buffer alone; afterwards slot 0 is the only active slot, the
    slots above it hold zeroed records, and so do the bytes of slot 0 past
    [size]. *)
Theorem recovery_leaves_slot_zero_only d buffer size :
  2 <= size <= Z.of_nat sizeof_struct_data_t ->
  size <= Z.of_nat (length buffer) ->
  (forall j, 0 <= j < NUMBER_OF_SECTORS ->
             slot_validates (mem d) j size = false) ->
  exists d',
    eeprom_sector_load buffer size d = Some ((0, buffer), d')
    /\ active_slots (mem d') = [0]
    /\ (forall j, 1 <= j < NUMBER_OF_SECTORS ->
                  slot_payload (mem d') j sizeof_struct_data_t
                  = replicate sizeof_struct_data_t x00)
    /\ drop (Z.to_nat size) (slot_payload (mem d') 0 sizeof_struct_data_t)
       = replicate (sizeof_struct_data_t - Z.to_nat size) x00.
Proof.
  intros Hs Hb Hnone. eexists. split; [now apply load_recovery_run|].
  set (s := staging_after_scan _ _ _ _).
  assert (Hl : length (take (Z.to_nat size) s) = Z.to_nat size).
  { apply take_staging_length; [lia|].
    apply staging_after_scan_length; [lia | apply length_replicate]. }
  split; [|split].
  - apply active_slots_after_bootstrap. rewrite Hl. sizes.
  - intros j Hj. apply other_payloads_after_bootstrap; [assumption|].
    rewrite Hl. sizes.
  - rewrite first_payload_after_bootstrap by (rewrite Hl; sizes).
    rewrite drop_app_length' by now rewrite Hl. now rewrite Hl.
Qed.

(** X11: when no slot validates but some slot is active, the payload that
    the recovery path stores in slot 0, which it activates, is the [size]
    bytes of the highest active slot: a record that has just failed the
    CRC test. *)
Theorem recovery_stores_last_active_record d buffer size k :
  2 <= size <= Z.of_nat sizeof_struct_data_t ->
  size <= Z.of_nat (length buffer) ->
  (forall j, 0 <= j < NUMBER_OF_SECTORS ->
             slot_validates (mem d) j size = false) ->
  0 <= k < NUMBER_OF_SECTORS ->
  slot_active (mem d) k = true ->
  (forall j, k < j < NUMBER_OF_SECTORS -> slot_active (mem d) j = false) ->
  exists d',
    eeprom_sector_load buffer size d = Some ((0, buffer), d')
    /\ slot_payload (mem d') 0 (Z.to_nat size)
       = slot_payload (mem d) k (Z.to_nat size).
Proof.
  intros Hs Hb Hnone Hk Ha Hhigh. eexists.
  split; [now apply load_recovery_run|].
  assert (Hst : staging_after_scan (mem d) size
                  (slots_between 0 NUMBER_OF_SECTORS)
                  (replicate sizeof_struct_data_t x00)
                = staged (mem d) k size).
  { change (slots_between 0 NUMBER_OF_SECTORS) with [0; 1; 2; 3].
    unfold staging_after_scan. cbn [fold_left].
    each_sector k Hk; rewrite Ha, ?Hhigh by sizes; reflexivity. }
  rewrite Hst, take_staged.
  unfold after_bootstrap. cbn [mem].
  set (data := slot_payload (mem d) k (Z.to_nat size)).
  replace (Z.to_nat size) with (length data) by apply read_bytes_length.
  apply read_bytes_store_same.
Qed.

(** ** The record of the recovery path, loaded again *)

Lemma trailing_crc_ok_zeros :
  trailing_crc_ok (replicate sizeof_struct_data_t x00)
  = (calculate_crc16 (replicate DATA_LENGTH x00) =? 0).
Proof.
  unfold trailing_crc_ok. rewrite length_replicate.
  change (sizeof_struct_data_t - 2)%nat with DATA_LENGTH.
  rewrite take_replicate, !nth_zeros.
  now destruct endian.
Qed.

Lemma writes_of_clear_all :
  length (writes_of (concat (map clear_events sectors))) = 8%nat.
Proof. reflexivity. Qed.

(** X12: on a device with no active slot, a load of a whole record runs
    the recovery path and leaves slot 0 active with 66 zero bytes.  That
    record validates exactly when the CRC-16 of 64 zero bytes is 0: if it
    is, the next load returns slot 0 and the zero record without writing;
    if it is not, the next load runs the recovery path again, with its ten
    transport writes. *)
Theorem bootstrapped_record_validates_iff d buffer :
  active_slots (mem d) = [] ->
  Z.of_nat sizeof_struct_data_t <= Z.of_nat (length buffer) ->
  exists d1,
    eeprom_sector_load buffer (Z.of_nat sizeof_struct_data_t) d
    = Some ((0, buffer), d1)
    /\ (calculate_crc16 (replicate DATA_LENGTH x00) = 0 ->
        exists d2,
          eeprom_sector_load buffer (Z.of_nat sizeof_struct_data_t) d1
          = Some ((0, replicate sizeof_struct_data_t x00
                      ++ drop sizeof_struct_data_t buffer), d2)
          /\ mem d2 = mem d1)
    /\ (calculate_crc16 (replicate DATA_LENGTH x00) <> 0 ->
        exists d2,
          eeprom_sector_load buffer (Z.of_nat sizeof_struct_data_t) d1
          = Some ((0, buffer), d2)
          /\ length (writes_of (log d2))
             = (length (writes_of (log d1)) + 10)%nat).
Proof.
  intros Ha Hb.
  assert (Hs : 2 <= Z.of_nat sizeof_struct_data_t
               <= Z.of_nat sizeof_struct_data_t) by sizes.
  eexists. split.
  { now apply load_without_active_slot. }
  rewrite Nat2Z.id.
  set (d1 := after_bootstrap _ (replicate sizeof_struct_data_t x00)).
  assert (Hl : Z.of_nat (length (replicate sizeof_struct_data_t x00))
               <= slot_capacity) by (rewrite length_replicate; sizes).
  assert (Hact : forall j, 0 <= j < NUMBER_OF_SECTORS ->
                           slot_active (mem d1) j = (j =? 0)).
  { apply active_slots_single; [sizes|].
    now apply active_slots_after_bootstrap. }
  assert (Hpay : slot_payload (mem d1) 0 sizeof_struct_data_t
                 = replicate sizeof_struct_data_t x00).
  { unfold d1. rewrite first_payload_after_bootstrap
      by (rewrite length_replicate; lia).
    rewrite length_replicate, Nat.sub_diag. apply app_nil_r. }
  assert (Hval : slot_validates (mem d1) 0 (Z.of_nat sizeof_struct_data_t)
                 = (calculate_crc16 (replicate DATA_LENGTH x00) =? 0)).
  { unfold slot_validates. rewrite Hact by sizes.
    now rewrite crc_validates_record, Hpay, trailing_crc_ok_zeros. }
  split.
  - intros Hzero.
    destruct (load_valid_path calculate_crc16 endian d1 buffer
                (Z.of_nat sizeof_struct_data_t) 0 Hs Hb)
      as (d2 & Hrun & Hmem & _); [sizes | | intros; lia |].
    { rewrite Hval. now apply Z.eqb_eq. }
    exists d2. split; [|assumption].
    now rewrite Hrun, Nat2Z.id, Hpay.
  - intros Hnz. eexists. split.
    + apply load_recovery_run; [assumption .. |]. intros j Hj.
      destruct (Z.eq_dec j 0) as [-> | Hne].
      * rewrite Hval. now apply Z.eqb_neq.
      * unfold slot_validates. rewrite Hact by assumption.
        now replace (j =? 0) with false by lia.
    + unfold after_bootstrap at 1. cbn [log].
      rewrite fold_after_clear_log. unfold add_log at 1. cbn [log].
      rewrite !writes_of_app, writes_of_scan_events, app_nil_r.
      rewrite !length_app, writes_of_clear_all. cbn [writes_of List.filter
        is_write length]. lia.
Qed.

(** X13: after [eeprom_all_sectors_clear], a load returns slot 0 without
    writing the caller's buffer, and leaves slot 0 active and every slot
    with a zeroed record. *)
Theorem load_after_clear_all d buffer size :
  2 <= size <= Z.of_nat sizeof_struct_data_t ->
  size <= Z.of_nat (length buffer) ->
  exists d1 d2,
    eeprom_all_sectors_clear d = Some (tt, d1)
    /\ eeprom_sector_load buffer size d1 = Some ((0, buffer), d2)
    /\ active_slots (mem d2) = [0]
    /\ forall j, 0 <= j < NUMBER_OF_SECTORS ->
                 slot_payload (mem d2) j sizeof_struct_data_t
                 = replicate sizeof_struct_data_t x00.
Proof.
  intros Hs Hb. eexists _, _.
  split; [apply eeprom_all_sectors_clear_run|].
  assert (Hl : length (replicate (Z.to_nat size) x00) = Z.to_nat size)
    by apply length_replicate.
  split; [|split].
  - apply load_without_active_slot; [assumption .. |].
    apply active_slots_nil. intros j Hj. unfold slot_active.
    now destruct (all_cleared_slot d j Hj) as [-> _].
  - apply active_slots_after_bootstrap. rewrite Hl. sizes.
  - intros j Hj. destruct (Z.eq_dec j 0) as [-> | Hne].
    + rewrite first_payload_after_bootstrap by (rewrite Hl; sizes).
      rewrite Hl, <- replicate_add. f_equal. sizes.
    + apply other_payloads_after_bootstrap; [lia|]. rewrite Hl. sizes.
Qed.

(** ** A run of updates, then a load *)

Lemma last_of_cons (b : list byte) bs :
  bs <> [] -> List.last (b :: bs) [] = List.last bs [].
Proof. destruct bs; [congruence | reflexivity]. Qed.

Lemma Forall_last (P : list byte -> Prop) l :
  Forall P l -> l <> [] -> P (List.last l []).
Proof.
  induction 1 as [|b bs Hb Hbs IH]; [congruence|]. intros _.
  destruct bs as [|b' bs']; [exact Hb|].
  rewrite last_of_cons by discriminate. apply IH. discriminate.
Qed.

(** A run of updates keeps a single active slot, and its payload is the
    record written last. *)
Lemma write_all_keeps_one_active size buffers :
  Forall (fun b => Z.of_nat (length b) = size) buffers ->
  size <= slot_capacity ->
  forall s d,
    active_slots (mem d) = [s] ->
    exists d',
      write_all buffers size s d = Some (rotation s (length buffers), d')
      /\ active_slots (mem d')
         = [(s + Z.of_nat (length buffers)) mod NUMBER_OF_SECTORS]
      /\ (buffers <> [] ->
          slot_payload (mem d')
            ((s + Z.of_nat (length buffers)) mod NUMBER_OF_SECTORS)
            (Z.to_nat size)
          = List.last buffers []).
Proof.
  intros Hall Hcap. induction Hall as [|b bs Hb Hbs IH]; intros s d Ha;
    pose proof (active_slots_in_range _ _ _ Ha) as Hs.
  - exists d. cbn [write_all length]. split; [reflexivity|].
    rewrite Z.add_0_r, Z.mod_small by assumption. now split.
  - cbn [write_all length].
    erewrite bind_run by (apply eeprom_sector_write_run; [assumption | lia]).
    rewrite take_ge by lia.
    destruct (IH (next_slot s) (after_write d s b)) as (d' & Hrun & Hact & Hlast).
    { apply active_slots_after_write; [assumption | lia]. }
    rewrite (bind_run _ _ _ _ _ Hrun). exists d'.
    assert (Hidx : (next_slot s + Z.of_nat (length bs)) mod NUMBER_OF_SECTORS
                   = (s + Z.of_nat (S (length bs))) mod NUMBER_OF_SECTORS).
    { unfold next_slot. rewrite Z.add_mod_idemp_l by sizes. f_equal. lia. }
    rewrite Hidx in Hact, Hlast.
    split; [now rewrite rotation_cons|]. split; [assumption|].
    intros _. destruct bs as [|b' bs'].
    + cbn [write_all] in Hrun. injection Hrun as <-.
      cbn [List.last length]. replace (s + Z.of_nat 1) with (s + 1) by lia.
      fold (next_slot s). replace (Z.to_nat size) with (length b) by lia.
      apply slot_payload_after_write.
    + rewrite last_of_cons by discriminate. apply Hlast. discriminate.
Qed.

(** X14: from a device with a single active slot, after any run of one or
    more updates with whole records that end in their CRC, each passed the
    index the one before returned, a load returns the record written
    last, from the slot the last update returned. *)
Theorem writes_then_load_returns_last_record d buffers out_buffer s :
  active_slots (mem d) = [s] ->
  buffers <> [] ->
  Forall (fun b => length b = sizeof_struct_data_t
                   /\ trailing_crc_ok b = true) buffers ->
  Z.of_nat sizeof_struct_data_t <= Z.of_nat (length out_buffer) ->
  exists slots d1 d2,
    write_all buffers (Z.of_nat sizeof_struct_data_t) s d = Some (slots, d1)
    /\ List.last slots s
       = (s + Z.of_nat (length buffers)) mod NUMBER_OF_SECTORS
    /\ eeprom_sector_load out_buffer (Z.of_nat sizeof_struct_data_t) d1
       = Some (((s + Z.of_nat (length buffers)) mod NUMBER_OF_SECTORS,
                List.last buffers [] ++ drop sizeof_struct_data_t out_buffer),
               d2).
Proof.
  intros Ha Hne Hall Ho.
  set (k := (s + Z.of_nat (length buffers)) mod NUMBER_OF_SECTORS).
  assert (Hk : 0 <= k < NUMBER_OF_SECTORS)
    by (apply Z.mod_pos_bound; sizes).
  destruct (write_all_keeps_one_active
              (Z.of_nat sizeof_struct_data_t) buffers)
    with (s := s) (d := d) as (d1 & Hrun & Hact & Hlast);
    [ revert Hall; apply Forall_impl; intros b [-> _]; reflexivity
    | sizes | assumption |].
  specialize (Hlast Hne). fold k in Hact, Hlast. rewrite Nat2Z.id in Hlast.
  pose proof (proj1 (active_slots_single _ _ Hk) Hact) as Hst.
  destruct (Forall_last _ _ Hall Hne) as [_ Hcrc].
  destruct (load_valid_path calculate_crc16 endian d1 out_buffer
              (Z.of_nat sizeof_struct_data_t) k)
    as (d2 & Hload & _); [sizes | assumption | assumption | | |].
  - unfold slot_validates.
    now rewrite Hst, Z.eqb_refl, crc_validates_record, Hlast by assumption.
  - intros j Hj. unfold slot_validates. rewrite Hst by lia.
    now replace (j =? k) with false by lia.
  - exists (rotation s (length buffers)), d1, d2.
    split; [assumption|]. split.
    + destruct buffers as [|b bs]; [congruence|].
      unfold k. cbn [length]. rewrite rotation_snoc, last_last.
      f_equal. lia.
    + now rewrite Hload, Nat2Z.id, Hlast.
Qed.

(** ** An update cut short by a loss of power *)

Lemma status_store_keeps_payload m i b j n :
  0 <= i < NUMBER_OF_SECTORS -> 0 <= j < NUMBER_OF_SECTORS ->
  Z.of_nat n <= slot_capacity ->
  slot_payload (store_bytes m (status_address_of i) [b]) j n
  = slot_payload m j n.
Proof.
  intros Hi Hj Hn. unfold slot_payload. apply read_bytes_store_outside.
  rewrite status_address_value, payload_address_value by assumption.
  cbn [length]. unfold slot_capacity in Hn. lia.
Qed.

Lemma cut_after_first_write d current bytes :
  active_slots (mem d) = [current] ->
  active_slots (mem (interrupted d (write_events current bytes) 1)) = [].
Proof.
  intros Ha. pose proof (active_slots_in_range _ _ _ Ha) as Hc.
  pose proof (proj1 (active_slots_single _ _ Hc) Ha) as Hst.
  apply active_slots_nil. intros j Hj.
  cbn [interrupted mem write_events take firstn replay fold_left apply_event].
  unfold slot_active. rewrite store_status_byte by assumption.
  destruct (j =? current) eqn:E; [reflexivity|].
  unfold slot_active in Hst. now rewrite Hst, E.
Qed.

Lemma cut_after_second_write d current bytes :
  active_slots (mem d) = [current] ->
  active_slots (mem (interrupted d (write_events current bytes) 2))
  = [next_slot current]
  /\ forall j n,
       0 <= j < NUMBER_OF_SECTORS -> Z.of_nat n <= slot_capacity ->
       slot_payload (mem (interrupted d (write_events current bytes) 2)) j n
       = slot_payload (mem d) j n.
Proof.
  intros Ha. pose proof (active_slots_in_range _ _ _ Ha) as Hc.
  pose proof (next_slot_range current) as Hn.
  pose proof (proj1 (active_slots_single _ _ Hc) Ha) as Hst.
  cbn [interrupted mem write_events take firstn replay fold_left apply_event].
  split.
  - apply active_slots_single; [assumption|]. intros j Hj.
    unfold slot_active. rewrite !store_status_byte by assumption.
    destruct (j =? next_slot current); [reflexivity|].
    destruct (j =? current) eqn:E; [reflexivity|].
    unfold slot_active in Hst. now rewrite Hst, E.
  - intros j n Hj Hcap. now rewrite !status_store_keeps_payload.
Qed.

Lemma replay_write_events d current bytes :
  replay (mem d) (write_events current bytes)
  = mem (after_write d current bytes).
Proof. reflexivity. Qed.

(** X15: while an update runs, the device never shows two active slots.
    From a device with one active slot, the memory after the first
    transport write of the update has no active slot, and after the second
    and the third it has one, the next slot; the memory the update leaves
    is the one its three writes build. *)
Theorem update_never_shows_two_active_slots d buffer size current_sector k :
  active_slots (mem d) = [current_sector] ->
  0 <= size <= Z.of_nat (length buffer) ->
  size <= slot_capacity ->
  exists d' evs,
    eeprom_sector_write buffer size current_sector d
    = Some (next_slot current_sector, d')
    /\ log d' = log d ++ evs
    /\ mem d' = replay (mem d) evs
    /\ active_slots (mem (interrupted d evs k))
       = match k with
         | 0%nat => [current_sector]
         | 1%nat => []
         | _ => [next_slot current_sector]
         end.
Proof.
  intros Ha Hs Hcap. pose proof (active_slots_in_range _ _ _ Ha) as Hc.
  exists (after_write d current_sector (take (Z.to_nat size) buffer)),
         (write_events current_sector (take (Z.to_nat size) buffer)).
  split; [now apply eeprom_sector_write_run|].
  split; [reflexivity|]. split; [reflexivity|].
  destruct k as [|[|[|k]]].
  - exact Ha.
  - now apply cut_after_first_write.
  - now apply cut_after_second_write.
  - unfold interrupted. cbn [mem].
    replace (take (S (S (S k))) (write_events current_sector
                                   (take (Z.to_nat size) buffer)))
      with (write_events current_sector (take (Z.to_nat size) buffer))
      by now destruct k.
    rewrite replay_write_events.
    apply active_slots_after_write; [assumption|].
    rewrite take_size_length by assumption. assumption.
Qed.

(** X16: if power is lost after the first transport write of an update,
    the next load finds no active slot and runs the recovery path: it
    returns slot 0, and every slot, the one that held the record before
    the update too, is left with zeros. *)
Theorem cut_after_first_write_loses_the_record
    d buffer size current_sector buffer2 size2 :
  active_slots (mem d) = [current_sector] ->
  0 <= size <= Z.of_nat (length buffer) ->
  2 <= size2 <= Z.of_nat sizeof_struct_data_t ->
  size2 <= Z.of_nat (length buffer2) ->
  exists d' evs d2,
    eeprom_sector_write buffer size current_sector d
    = Some (next_slot current_sector, d')
    /\ log d' = log d ++ evs
    /\ eeprom_sector_load buffer2 size2 (interrupted d evs 1)
       = Some ((0, buffer2), d2)
    /\ active_slots (mem d2) = [0]
    /\ forall j, 0 <= j < NUMBER_OF_SECTORS ->
                 slot_payload (mem d2) j sizeof_struct_data_t
                 = replicate sizeof_struct_data_t x00.
Proof.
  intros Ha Hs Hs2 Hb2. pose proof (active_slots_in_range _ _ _ Ha) as Hc.
  eexists _, (write_events current_sector (take (Z.to_nat size) buffer)), _.
  split; [now apply eeprom_sector_write_run|]. split; [reflexivity|].
  assert (Hl : length (replicate (Z.to_nat size2) x00) = Z.to_nat size2)
    by apply length_replicate.
  split; [|split].
  - apply load_without_active_slot; [assumption .. |].
    now apply cut_after_first_write.
  - apply active_slots_after_bootstrap. rewrite Hl. sizes.
  - intros j Hj. destruct (Z.eq_dec j 0) as [-> | Hne].
    + rewrite first_payload_after_bootstrap by (rewrite Hl; sizes).
      rewrite Hl, <- replicate_add. f_equal. sizes.
    + apply other_payloads_after_bootstrap; [lia|]. rewrite Hl. sizes.
Qed.

Lemma crc_validates_same_payload m m' i size :
  slot_payload m i (Z.to_nat size) = slot_payload m' i (Z.to_nat size) ->
  crc_validates m i size = crc_validates m' i size.
Proof.
  intros H. unfold crc_validates, staged. now rewrite H.
Qed.

(** X17: if power is lost after the second transport write of an update,
    the next slot is active but still holds what it held before.  The next
    load returns that slot and its old bytes when they pass the CRC test,
    and not the record of the slot the update started from; when they
    fail the test, the load runs the recovery path and returns slot 0. *)
Theorem cut_after_second_write_returns_old_bytes
    d buffer size current_sector buffer2 size2 :
  active_slots (mem d) = [current_sector] ->
  0 <= size <= Z.of_nat (length buffer) ->
  2 <= size2 <= Z.of_nat sizeof_struct_data_t ->
  size2 <= Z.of_nat (length buffer2) ->
  exists d' evs d2,
    eeprom_sector_write buffer size current_sector d
    = Some (next_slot current_sector, d')
    /\ log d' = log d ++ evs
    /\ eeprom_sector_load buffer2 size2 (interrupted d evs 2)
       = Some (if crc_validates (mem d) (next_slot current_sector) size2
               then (next_slot current_sector,
                     slot_payload (mem d) (next_slot current_sector)
                                  (Z.to_nat size2)
                     ++ drop (Z.to_nat size2) buffer2)
               else (0, buffer2),
               d2).
Proof.
  intros Ha Hs Hs2 Hb2. pose proof (active_slots_in_range _ _ _ Ha) as Hc.
  pose proof (next_slot_range current_sector) as Hn.
  set (evs := write_events current_sector (take (Z.to_nat size) buffer)).
  destruct (cut_after_second_write d current_sector
              (take (Z.to_nat size) buffer) Ha) as [Hact Hpay].
  fold evs in Hact, Hpay.
  pose proof (proj1 (active_slots_single _ _ Hn) Hact) as Hst.
  assert (Hsame : crc_validates (mem (interrupted d evs 2))
                    (next_slot current_sector) size2
                  = crc_validates (mem d) (next_slot current_sector) size2).
  { apply crc_validates_same_payload. apply Hpay; [assumption | sizes]. }
  destruct (crc_validates (mem d) (next_slot current_sector) size2) eqn:Ev.
  - destruct (load_valid_path calculate_crc16 endian (interrupted d evs 2)
                buffer2 size2 (next_slot current_sector) Hs2 Hb2 Hn)
      as (d2 & Hload & _).
    + unfold slot_validates. now rewrite Hst, Z.eqb_refl, Hsame by assumption.
    + intros j Hj. unfold slot_validates. rewrite Hst by lia.
      now replace (j =? next_slot current_sector) with false by lia.
    + exists (after_write d current_sector (take (Z.to_nat size) buffer)),
             evs, d2.
      split; [now apply eeprom_sector_write_run|]. split; [reflexivity|].
      rewrite Hload, Hpay by (assumption || sizes). reflexivity.
  - eexists _, evs, _.
    split; [now apply eeprom_sector_write_run|]. split; [reflexivity|].
    apply load_recovery_run; [assumption .. |].
    intros j Hj. unfold slot_validates. rewrite Hst by assumption.
    destruct (j =? next_slot current_sector) eqn:E; [|reflexivity].
    apply Z.eqb_eq in E. subst j. now rewrite Hsame.
Qed.

End Protocol.

(** ** The further properties on concrete devices *)

Ltac no_slot_validates :=
  let j := fresh "j" in
  let Hj := fresh "Hj" in
  intros j Hj; each_sector j Hj; evaluate.

Lemma write_changes_three_places_only_witness :
  exists d',
    eeprom_sector_write other_record 66 0 (device_with 0 example_record)
    = Some (next_slot 0, d')
    /\ mem d' 0x2000 = mem (device_with 0 example_record) 0x2000.
Proof.
  apply (write_changes_three_places_only (device_with 0 example_record)
           other_record 66 0 0x2000).
  - in_bounds.
  - in_bounds.
  - in_bounds.
  - in_bounds.
  - right. in_bounds.
Defined.

Lemma write_keeps_other_payloads_witness :
  exists d',
    eeprom_sector_write other_record 66 0 (device_with 0 example_record)
    = Some (next_slot 0, d')
    /\ slot_payload (mem d') 0 66
       = slot_payload (mem (device_with 0 example_record)) 0 66.
Proof.
  apply (write_keeps_other_payloads (device_with 0 example_record)
           other_record 66 0 0 66).
  - in_bounds.
  - in_bounds.
  - in_bounds.
  - in_bounds.
  - in_bounds.
  - in_bounds.
Defined.

Lemma clear_changes_one_slot_only_witness :
  exists d',
    setting_sector_clear 1 device_two_valid = Some (tt, d')
    /\ slot_status (mem d') 1 = SECTOR_INACTIVE
    /\ slot_payload (mem d') 1 sizeof_struct_data_t
       = replicate sizeof_struct_data_t x00
    /\ slot_status (mem d') 3 = slot_status (mem device_two_valid) 3
    /\ slot_payload (mem d') 3 66
       = slot_payload (mem device_two_valid) 3 66.
Proof.
  apply (clear_changes_one_slot_only device_two_valid 1 3 66).
  - in_bounds.
  - in_bounds.
  - in_bounds.
  - in_bounds.
Defined.

Lemma write_defined_iff_witness :
  eeprom_sector_write example_record 66 7 virgin <> None
  <-> 7 < NUMBER_OF_SECTORS /\ 66 <= Z.of_nat (length example_record).
Proof.
  apply (write_defined_iff virgin example_record 66 7).
  - in_bounds.
  - in_bounds.
Defined.

Lemma oversize_record_hits_next_status_witness :
  exists d',
    eeprom_sector_write (scratch 5000) 4095 0 virgin
    = Some (next_slot 0, d')
    /\ slot_status (mem d') (next_slot 0 + 1)
       = nth (Z.to_nat slot_capacity) (scratch 5000) x00.
Proof.
  apply (oversize_record_hits_next_status virgin (scratch 5000) 4095 0).
  - in_bounds.
  - in_bounds.
  - in_bounds.
Defined.

Lemma load_oversize_undefined_witness :
  eeprom_sector_load crc16_ccitt LittleEndian (scratch 70) 67
                     device_two_valid
  = None.
Proof.
  apply (load_oversize_undefined crc16_ccitt LittleEndian device_two_valid
           (scratch 70) 67).
  in_bounds.
Defined.

Lemma load_undersize_undefined_witness :
  eeprom_sector_load crc16_ccitt LittleEndian (scratch 70) 1
                     device_two_valid
  = None.
Proof.
  apply (load_undersize_undefined crc16_ccitt LittleEndian device_two_valid
           (scratch 70) 1).
  - in_bounds.
  - in_bounds.
Defined.

Lemma load_is_repeatable_witness :
  exists k out d1 d2,
    eeprom_sector_load crc16_ccitt LittleEndian (scratch 70) 66
                       device_two_valid
    = Some ((k, out), d1)
    /\ eeprom_sector_load crc16_ccitt LittleEndian (scratch 66) 66 d1
       = Some ((k, take (Z.to_nat 66) out
                   ++ drop (Z.to_nat 66) (scratch 66)), d2).
Proof.
  apply (load_is_repeatable crc16_ccitt LittleEndian device_two_valid
           (scratch 70) (scratch 66) 66).
  - in_bounds.
  - in_bounds.
  - in_bounds.
  - exists 1. split; [in_bounds | evaluate].
Defined.

Lemma load_returns_the_active_slot_witness :
  exists k out d',
    eeprom_sector_load crc16_ccitt LittleEndian (scratch 66) 66
                       (device_with 2 corrupt_record)
    = Some ((k, out), d')
    /\ active_slots (mem d') = [k].
Proof.
  apply (load_returns_the_active_slot crc16_ccitt LittleEndian
           (device_with 2 corrupt_record) (scratch 66) 66).
  - in_bounds.
  - in_bounds.
  - in_bounds.
Defined.

Lemma recovery_leaves_slot_zero_only_witness :
  exists d',
    eeprom_sector_load crc16_ccitt LittleEndian (scratch 10) 10
                       (device_with 2 corrupt_record)
    = Some ((0, scratch 10), d')
    /\ active_slots (mem d') = [0]
    /\ (forall j, 1 <= j < NUMBER_OF_SECTORS ->
                  slot_payload (mem d') j sizeof_struct_data_t
                  = replicate sizeof_struct_data_t x00)
    /\ drop (Z.to_nat 10) (slot_payload (mem d') 0 sizeof_struct_data_t)
       = replicate (sizeof_struct_data_t - Z.to_nat 10) x00.
Proof.
  apply (recovery_leaves_slot_zero_only crc16_ccitt LittleEndian
           (device_with 2 corrupt_record) (scratch 10) 10).
  - in_bounds.
  - in_bounds.
  - no_slot_validates.
Defined.

Lemma recovery_stores_last_active_record_witness :
  exists d',
    eeprom_sector_load crc16_ccitt LittleEndian (scratch 66) 66
                       (device_with 2 corrupt_record)
    = Some ((0, scratch 66), d')
    /\ slot_payload (mem d') 0 (Z.to_nat 66)
       = slot_payload (mem (device_with 2 corrupt_record)) 2 (Z.to_nat 66).
Proof.
  apply (recovery_stores_last_active_record crc16_ccitt LittleEndian
           (device_with 2 corrupt_record) (scratch 66) 66 2).
  - in_bounds.
  - in_bounds.
  - no_slot_validates.
  - in_bounds.
  - evaluate.
  - intros j Hj. assert (j = 3) as -> by (unfold NUMBER_OF_SECTORS in Hj; lia).
    evaluate.
Defined.

Lemma bootstrapped_record_validates_iff_witness :
  exists d1,
    eeprom_sector_load crc16_ccitt LittleEndian (scratch 66)
                       (Z.of_nat sizeof_struct_data_t) virgin
    = Some ((0, scratch 66), d1)
    /\ (crc16_ccitt (replicate DATA_LENGTH x00) = 0 ->
        exists d2,
          eeprom_sector_load crc16_ccitt LittleEndian (scratch 66)
                             (Z.of_nat sizeof_struct_data_t) d1
          = Some ((0, replicate sizeof_struct_data_t x00
                      ++ drop sizeof_struct_data_t (scratch 66)), d2)
          /\ mem d2 = mem d1)
    /\ (crc16_ccitt (replicate DATA_LENGTH x00) <> 0 ->
        exists d2,
          eeprom_sector_load crc16_ccitt LittleEndian (scratch 66)
                             (Z.of_nat sizeof_struct_data_t) d1
          = Some ((0, scratch 66), d2)
          /\ length (writes_of (log d2))
             = (length (writes_of (log d1)) + 10)%nat).
Proof.
  apply (bootstrapped_record_validates_iff crc16_ccitt LittleEndian virgin
           (scratch 66)).
  - evaluate.
  - in_bounds.
Defined.

Lemma load_after_clear_all_witness :
  exists d1 d2,
    eeprom_all_sectors_clear device_two_valid = Some (tt, d1)
    /\ eeprom_sector_load crc16_ccitt LittleEndian (scratch 66) 66 d1
       = Some ((0, scratch 66), d2)
    /\ active_slots (mem d2) = [0]
    /\ forall j, 0 <= j < NUMBER_OF_SECTORS ->
                 slot_payload (mem d2) j sizeof_struct_data_t
                 = replicate sizeof_struct_data_t x00.
Proof.
  apply (load_after_clear_all crc16_ccitt LittleEndian device_two_valid
           (scratch 66) 66).
  - in_bounds.
  - in_bounds.
Defined.

Lemma writes_then_load_returns_last_record_witness :
  exists slots d1 d2,
    write_all [other_record; example_record; other_record]
              (Z.of_nat sizeof_struct_data_t) 2
              (device_with 2 example_record)
    = Some (slots, d1)
    /\ List.last slots 2 = (2 + Z.of_nat 3) mod NUMBER_OF_SECTORS
    /\ eeprom_sector_load crc16_ccitt LittleEndian (scratch 70)
                          (Z.of_nat sizeof_struct_data_t) d1
       = Some (((2 + Z.of_nat 3) mod NUMBER_OF_SECTORS,
                List.last [other_record; example_record; other_record] []
                ++ drop sizeof_struct_data_t (scratch 70)),
               d2).
Proof.
  apply (writes_then_load_returns_last_record crc16_ccitt LittleEndian
           (device_with 2 example_record)
           [other_record; example_record; other_record] (scratch 70) 2).
  - evaluate.
  - discriminate.
  - repeat constructor; evaluate.
  - in_bounds.
Defined.

Lemma update_never_shows_two_active_slots_witness :
  exists d' evs,
    eeprom_sector_write other_record 66 0 (device_with 0 example_record)
    = Some (next_slot 0, d')
    /\ log d' = log (device_with 0 example_record) ++ evs
    /\ mem d' = replay (mem (device_with 0 example_record)) evs
    /\ active_slots (mem (interrupted (device_with 0 example_record) evs 1))
       = [].
Proof.
  apply (update_never_shows_two_active_slots (device_with 0 example_record)
           other_record 66 0 1).
  - evaluate.
  - in_bounds.
  - in_bounds.
Defined.

Lemma cut_after_first_write_loses_the_record_witness :
  exists d' evs d2,
    eeprom_sector_write other_record 66 0 (device_with 0 example_record)
    = Some (next_slot 0, d')
    /\ log d' = log (device_with 0 example_record) ++ evs
    /\ eeprom_sector_load crc16_ccitt LittleEndian (scratch 66) 66
         (interrupted (device_with 0 example_record) evs 1)
       = Some ((0, scratch 66), d2)
    /\ active_slots (mem d2) = [0]
    /\ forall j, 0 <= j < NUMBER_OF_SECTORS ->
                 slot_payload (mem d2) j sizeof_struct_data_t
                 = replicate sizeof_struct_data_t x00.
Proof.
  apply (cut_after_first_write_loses_the_record crc16_ccitt LittleEndian
           (device_with 0 example_record) other_record 66 0
           (scratch 66) 66).
  - evaluate.
  - in_bounds.
  - in_bounds.
  - in_bounds.
Defined.

Lemma cut_after_second_write_returns_old_bytes_witness :
  exists d' evs d2,
    eeprom_sector_write example_record 66 0 device_rotated
    = Some (next_slot 0, d')
    /\ log d' = log device_rotated ++ evs
    /\ eeprom_sector_load crc16_ccitt LittleEndian (scratch 66) 66
         (interrupted device_rotated evs 2)
       = Some (if crc_validates crc16_ccitt LittleEndian
                    (mem device_rotated) (next_slot 0) 66
               then (next_slot 0,
                     slot_payload (mem device_rotated) (next_slot 0)
                                  (Z.to_nat 66)
                     ++ drop (Z.to_nat 66) (scratch 66))
               else (0, scratch 66),
               d2).
Proof.
  apply (cut_after_second_write_returns_old_bytes crc16_ccitt LittleEndian
           device_rotated example_record 66 0 (scratch 66) 66).
  - evaluate.
  - in_bounds.
  - in_bounds.
  - in_bounds.
Defined.

(** On [device_rotated] the bytes that come back after such a cut are
    [other_record], the record written four updates before, and not
    [example_record], which the update was replacing. *)
Example cut_after_second_write_on_rotated_device :
  crc_validates crc16_ccitt LittleEndian (mem device_rotated) (next_slot 0) 66
  = true
  /\ slot_payload (mem device_rotated) (next_slot 0) 66 = other_record.
Proof. split; evaluate. Qed.

Lemma status_bytes_wear_twice_witness :
  exists slots d' evs,
    write_all [example_record; other_record; example_record; other_record;
               example_record; other_record] 66 0 bootstrapped
    = Some (slots, d')
    /\ log d' = log bootstrapped ++ evs
    /\ forall j, 0 <= j < NUMBER_OF_SECTORS ->
                 (payload_writes j evs <= status_writes j evs)%nat
                 /\ 2 * (Z.of_nat 6 / NUMBER_OF_SECTORS)
                    <= Z.of_nat (status_writes j evs)
                    <= 2 * ((Z.of_nat 6 + NUMBER_OF_SECTORS - 1)
                            / NUMBER_OF_SECTORS).
Proof.
  apply (status_bytes_wear_twice bootstrapped
           [example_record; other_record; example_record; other_record;
            example_record; other_record] 66 0).
  - in_bounds.
  - repeat constructor; in_bounds.
Defined.
